(** * Aurum Atelier try-on widget: gesture recognizer, catalog navigator and
      auto-capture sequencer of [script.js].

    The script keeps its state in top-level [let] variables and reacts to
    browser callbacks (hand-landmark results, clicks, timers).  The model
    below gathers those variables in one record, [State], and turns every
    function of the script into a function on [State].  Numbers read from the
    landmark detector are IEEE-754 doubles, modelled by the primitive floats;
    [Date.now()] readings and array indices are integers.

    [script.js] holds two revisions of the script, one after the other.  The
    functions modelled here read the same in both; [takeSnapshot] exists in
    the second only.  What the script does to the page (button labels, the
    indicator dot, the flash overlay) is left out except for the alert, the
    indicator flash and the showing of the gallery, which are logged in
    [effects].  The objects [IMAGE_COUNTS] and [preloadedAssets] are read as
    maps of their own properties: category names are taken not to be names
    of members of [Object.prototype]. *)

From Stdlib Require Import ZArith Floats DecimalString Sorted.
From stdpp Require Import gmap strings list fin_maps.

Local Open Scope Z_scope.
(* 0.04 is read as the nearest double, as the script's literal is. *)
#[local] Set Warnings "-inexact-float".

(** ** Values *)

(** An [Image] object: [img_ref] is the identity of the object on the heap
    (what [===] and [indexOf] compare), [img_src] its [src] attribute. *)
Record Image := { img_ref : nat; img_src : string }.

(** What the variables [earringImg] and [necklaceImg] can hold. *)
Inductive jsval :=
| JNull
| JUndefined
| JImage (img : Image).

(** Strict equality [===] as [Array.prototype.indexOf] applies it: objects are
    equal when they are the same object. *)
Definition strict_eq (a b : jsval) : bool :=
  match a, b with
  | JNull, JNull => true
  | JUndefined, JUndefined => true
  | JImage x, JImage y => Nat.eqb (img_ref x) (img_ref y)
  | _, _ => false
  end.

Arguments strict_eq : simpl never.

(** A captured frame.  The data URL itself is produced by the canvas; what the
    script determines is the selection the renderer was given when the capture
    was taken, which is what a snapshot records here. *)
Record Snapshot := { snap_earring : jsval; snap_necklace : jsval }.

(** Observable actions on the page. *)
Inductive effect :=
| Alert (msg : string)
| FlashIndicator (color : string)
| ShowGallery (shown : list Snapshot).

(** The discrete gesture: [Next] is the call [navigateJewelry(1)], [Previous]
    the call [navigateJewelry(-1)]. *)
Inductive swipe := Next | Previous.

Definition swipe_dir (g : swipe) : Z :=
  match g with Next => 1 | Previous => -1 end.

(** ** State *)

Record State := mkState {
  earringImg : jsval;
  necklaceImg : jsval;
  currentType : string;
  lastGestureTime : Z;
  previousHandX : option float;
  autoTryRunning : bool;
  autoSnapshots : list Snapshot;
  autoTryIndex : nat;
  autoTryTimeout : option nat;
  preloadedAssets : gmap string (list Image);
  (* the thumbnails in #jewelry-options: the (type, i) each onclick closes over *)
  thumbButtons : list (string * nat);
  (* the browser's side: pending step timers, next timer id, next object *)
  timers : list nat;
  nextTimer : nat;
  nextRef : nat;
  effects : list effect
}.

Definition initialState : State :=
  {| earringImg := JNull; necklaceImg := JNull; currentType := "";
     lastGestureTime := 0; previousHandX := None;
     autoTryRunning := false; autoSnapshots := []; autoTryIndex := 0%nat;
     autoTryTimeout := None; preloadedAssets := ∅; thumbButtons := [];
     timers := []; nextTimer := 1%nat; nextRef := 0%nat; effects := [] |}.

Definition set_earringImg (v : jsval) (s : State) : State :=
  mkState v (necklaceImg s) (currentType s) (lastGestureTime s)
    (previousHandX s) (autoTryRunning s) (autoSnapshots s) (autoTryIndex s)
    (autoTryTimeout s) (preloadedAssets s) (thumbButtons s) (timers s)
    (nextTimer s) (nextRef s) (effects s).

Definition set_necklaceImg (v : jsval) (s : State) : State :=
  mkState (earringImg s) v (currentType s) (lastGestureTime s)
    (previousHandX s) (autoTryRunning s) (autoSnapshots s) (autoTryIndex s)
    (autoTryTimeout s) (preloadedAssets s) (thumbButtons s) (timers s)
    (nextTimer s) (nextRef s) (effects s).

Definition set_currentType (v : string) (s : State) : State :=
  mkState (earringImg s) (necklaceImg s) v (lastGestureTime s)
    (previousHandX s) (autoTryRunning s) (autoSnapshots s) (autoTryIndex s)
    (autoTryTimeout s) (preloadedAssets s) (thumbButtons s) (timers s)
    (nextTimer s) (nextRef s) (effects s).

Definition set_lastGestureTime (v : Z) (s : State) : State :=
  mkState (earringImg s) (necklaceImg s) (currentType s) v
    (previousHandX s) (autoTryRunning s) (autoSnapshots s) (autoTryIndex s)
    (autoTryTimeout s) (preloadedAssets s) (thumbButtons s) (timers s)
    (nextTimer s) (nextRef s) (effects s).

Definition set_previousHandX (v : option float) (s : State) : State :=
  mkState (earringImg s) (necklaceImg s) (currentType s) (lastGestureTime s)
    v (autoTryRunning s) (autoSnapshots s) (autoTryIndex s)
    (autoTryTimeout s) (preloadedAssets s) (thumbButtons s) (timers s)
    (nextTimer s) (nextRef s) (effects s).

Definition set_autoTryRunning (v : bool) (s : State) : State :=
  mkState (earringImg s) (necklaceImg s) (currentType s) (lastGestureTime s)
    (previousHandX s) v (autoSnapshots s) (autoTryIndex s)
    (autoTryTimeout s) (preloadedAssets s) (thumbButtons s) (timers s)
    (nextTimer s) (nextRef s) (effects s).

Definition set_autoSnapshots (v : list Snapshot) (s : State) : State :=
  mkState (earringImg s) (necklaceImg s) (currentType s) (lastGestureTime s)
    (previousHandX s) (autoTryRunning s) v (autoTryIndex s)
    (autoTryTimeout s) (preloadedAssets s) (thumbButtons s) (timers s)
    (nextTimer s) (nextRef s) (effects s).

Definition set_autoTryIndex (v : nat) (s : State) : State :=
  mkState (earringImg s) (necklaceImg s) (currentType s) (lastGestureTime s)
    (previousHandX s) (autoTryRunning s) (autoSnapshots s) v
    (autoTryTimeout s) (preloadedAssets s) (thumbButtons s) (timers s)
    (nextTimer s) (nextRef s) (effects s).

Definition set_preloadedAssets (v : gmap string (list Image)) (s : State) : State :=
  mkState (earringImg s) (necklaceImg s) (currentType s) (lastGestureTime s)
    (previousHandX s) (autoTryRunning s) (autoSnapshots s) (autoTryIndex s)
    (autoTryTimeout s) v (thumbButtons s) (timers s)
    (nextTimer s) (nextRef s) (effects s).

Definition set_thumbButtons (v : list (string * nat)) (s : State) : State :=
  mkState (earringImg s) (necklaceImg s) (currentType s) (lastGestureTime s)
    (previousHandX s) (autoTryRunning s) (autoSnapshots s) (autoTryIndex s)
    (autoTryTimeout s) (preloadedAssets s) v (timers s)
    (nextTimer s) (nextRef s) (effects s).

Definition set_nextRef (v : nat) (s : State) : State :=
  mkState (earringImg s) (necklaceImg s) (currentType s) (lastGestureTime s)
    (previousHandX s) (autoTryRunning s) (autoSnapshots s) (autoTryIndex s)
    (autoTryTimeout s) (preloadedAssets s) (thumbButtons s) (timers s)
    (nextTimer s) v (effects s).

Definition emit (e : effect) (s : State) : State :=
  mkState (earringImg s) (necklaceImg s) (currentType s) (lastGestureTime s)
    (previousHandX s) (autoTryRunning s) (autoSnapshots s) (autoTryIndex s)
    (autoTryTimeout s) (preloadedAssets s) (thumbButtons s) (timers s)
    (nextTimer s) (nextRef s) (effects s ++ [e]).

(** ** The browser's timers *)

(** [autoTryTimeout = setTimeout(callback, 1500)]: a fresh positive id, now
    pending. *)
Definition setTimeout_step (s : State) : State :=
  mkState (earringImg s) (necklaceImg s) (currentType s) (lastGestureTime s)
    (previousHandX s) (autoTryRunning s) (autoSnapshots s) (autoTryIndex s)
    (Some (nextTimer s)) (preloadedAssets s) (thumbButtons s)
    (timers s ++ [nextTimer s]) (S (nextTimer s)) (nextRef s) (effects s).

Definition remove_timer (id : nat) (l : list nat) : list nat :=
  filter (λ x, x ≠ id) l.

(** [clearTimeout(id)]: the id is no longer pending (nothing happens for an
    id that already fired). *)
Definition clearTimeout (id : nat) (s : State) : State :=
  mkState (earringImg s) (necklaceImg s) (currentType s) (lastGestureTime s)
    (previousHandX s) (autoTryRunning s) (autoSnapshots s) (autoTryIndex s)
    (autoTryTimeout s) (preloadedAssets s) (thumbButtons s)
    (remove_timer id (timers s)) (nextTimer s) (nextRef s) (effects s).

(** ** Catalogs *)

Definition IMAGE_COUNTS : gmap string nat :=
  list_to_map [("gold_earrings", 5%nat); ("gold_necklaces", 5%nat);
               ("diamond_earrings", 5%nat); ("diamond_necklaces", 6%nat)].

(** The bound of [for (let i = 1; i <= IMAGE_COUNTS[type]; i++)]: a missing
    count is [undefined], [1 <= undefined] is false and the loop body never
    runs. *)
Definition image_count (type : string) : nat :=
  default 0%nat (IMAGE_COUNTS !! type).

(** The template literal [`${type}/${i}.png`]. *)
Definition asset_src (type : string) (i : nat) : string :=
  type +:+ "/" +:+ NilZero.string_of_uint (Nat.to_uint i) +:+ ".png".

(** The images pushed by the loop of [preloadCategory]: one new object per
    [i = 1 .. count]. *)
Definition new_images (type : string) (base count : nat) : list Image :=
  map (λ i, {| img_ref := (base + i - 1)%nat; img_src := asset_src type i |})
      (seq 1 count).

Definition preloadCategory (type : string) (s : State) : State :=
  match preloadedAssets s !! type with
  | Some _ => s  (* an array, even an empty one, is truthy *)
  | None =>
      let count := image_count type in
      set_nextRef (nextRef s + count)%nat
        (set_preloadedAssets
           (<[type := new_images type (nextRef s) count]> (preloadedAssets s)) s)
  end.

(** [String.prototype.includes]. *)
Fixpoint includes (needle hay : string) : bool :=
  String.prefix needle hay ||
  match hay with
  | EmptyString => false
  | String _ rest => includes needle rest
  end.

Definition is_earrings (type : string) : bool := includes "earrings" type.

(** [if (type.includes('earrings')) earringImg = v; else necklaceImg = v;] *)
Definition assign_slot (type : string) (v : jsval) (s : State) : State :=
  if is_earrings type then set_earringImg v s else set_necklaceImg v s.

(** [type.includes('earrings') ? earringImg : necklaceImg] *)
Definition read_slot (type : string) (s : State) : jsval :=
  if is_earrings type then earringImg s else necklaceImg s.

(** [list.indexOf(v)] *)
Fixpoint indexOf_from (k : Z) (l : list Image) (v : jsval) : Z :=
  match l with
  | [] => -1
  | x :: rest => if strict_eq (JImage x) v then k else indexOf_from (k + 1) rest v
  end.

Definition indexOf (l : list Image) (v : jsval) : Z := indexOf_from 0 l v.

(** The remainder operator on integers: truncated, and [NaN] ([None]) for a
    zero divisor. *)
Definition js_rem (a n : Z) : option Z :=
  if n =? 0 then None else Some (Z.rem a n).

(** [list[k]] for a numeric key: [undefined] outside the array, also for
    [NaN]; [-0] is the key [0]. *)
Definition array_get (l : list Image) (k : option Z) : jsval :=
  match k with
  | None => JUndefined
  | Some z =>
      if z <? 0 then JUndefined
      else match l !! Z.to_nat z with
           | Some img => JImage img
           | None => JUndefined
           end
  end.

Arguments array_get : simpl never.

(** ** Navigation and selection *)

Definition navigateJewelry (dir : Z) (s : State) : State :=
  if String.eqb (currentType s) "" then s
  else match preloadedAssets s !! currentType s with
       | None => s
       | Some list =>
           let currentImg := read_slot (currentType s) s in
           let idx := indexOf list currentImg in
           let nextIdx := js_rem (idx + dir + Z.of_nat (length list))
                                 (Z.of_nat (length list)) in
           assign_slot (currentType s) (array_get list nextIdx) s
       end.

(** The [onclick] closure of the thumbnail created for [(type, i)].  With no
    array cached for [type] the lookup throws and nothing is assigned. *)
Definition thumbClick (type : string) (i : nat) (s : State) : State :=
  match preloadedAssets s !! type with
  | None => s
  | Some list => assign_slot type (array_get list (Some (Z.of_nat i - 1))) s
  end.

Definition selectJewelryType (type : string) (s : State) : State :=
  let s1 := preloadCategory type (set_currentType type s) in
  set_thumbButtons (map (λ i, (type, i)) (seq 1 (image_count type))) s1.

(** ** Try all (auto capture) *)

(** The gallery is filled with the collection and displayed; the page is
    taken to contain the modal and the grid the function looks up. *)
Definition showGallery (s : State) : State :=
  emit (ShowGallery (autoSnapshots s)) s.

Definition stopAutoTry (s : State) : State :=
  let s1 := set_autoTryRunning false s in
  let s2 := match autoTryTimeout s1 with
            | Some id => if Nat.eqb id 0 then s1 else clearTimeout id s1
            | None => s1
            end in
  if Nat.ltb 0 (length (autoSnapshots s2)) then showGallery s2 else s2.

Definition runAutoStep (s : State) : State :=
  if negb (autoTryRunning s) then s
  else match preloadedAssets s !! currentType s with
       | None => stopAutoTry s
       | Some assets =>
           if Nat.leb (length assets) (autoTryIndex s) then stopAutoTry s
           else
             let targetImg := array_get assets (Some (Z.of_nat (autoTryIndex s))) in
             setTimeout_step (assign_slot (currentType s) targetImg s)
       end.

Definition captureToGallery (s : State) : State :=
  set_autoSnapshots
    (autoSnapshots s ++
       [{| snap_earring := earringImg s; snap_necklace := necklaceImg s |}]) s.

Definition takeSnapshot (s : State) : State :=
  showGallery (captureToGallery s).

(** The function handed to [setTimeout] in [runAutoStep]. *)
Definition autoStepCallback (s : State) : State :=
  runAutoStep (set_autoTryIndex (S (autoTryIndex s)) (captureToGallery s)).

(** The timer [id] expires: its callback runs if the timer is still pending. *)
Definition timerFire (id : nat) (s : State) : State :=
  if bool_decide (id ∈ timers s)
  then autoStepCallback
         (mkState (earringImg s) (necklaceImg s) (currentType s)
            (lastGestureTime s) (previousHandX s) (autoTryRunning s)
            (autoSnapshots s) (autoTryIndex s) (autoTryTimeout s)
            (preloadedAssets s) (thumbButtons s) (remove_timer id (timers s))
            (nextTimer s) (nextRef s) (effects s))
  else s.

Definition startAutoTry (s : State) : State :=
  runAutoStep
    (set_autoTryIndex 0%nat (set_autoSnapshots [] (set_autoTryRunning true s))).

Definition noCategoryMessage : string :=
  "Please select a sub-category (e.g. Gold Earrings) first!".

Definition toggleTryAll (s : State) : State :=
  if String.eqb (currentType s) "" then emit (Alert noCategoryMessage) s
  else if autoTryRunning s then stopAutoTry s else startAutoTry s.

(** ** Hand detection (swipe logic) *)

Definition GESTURE_COOLDOWN : Z := 800.
Definition SWIPE_THRESHOLD : float := 0.04%float.

Definition updateHandIndicator (detected : bool) (s : State) : State :=
  if detected then s else set_previousHandX None s.

(** The body of the two firing branches: navigate, stamp the time, flash,
    drop the baseline. *)
Definition fireSwipe (g : swipe) (now : Z) (s : State) : State :=
  set_previousHandX None
    (emit (FlashIndicator "#d4af37")
       (set_lastGestureTime now (navigateJewelry (swipe_dir g) s))).

(** Which branch the comparison of the horizontal movement takes. *)
Definition detectSwipe (currentX prevX : float) : option swipe :=
  let diff := (currentX - prevX)%float in
  if (diff <? - SWIPE_THRESHOLD)%float then Some Next
  else if (SWIPE_THRESHOLD <? diff)%float then Some Previous
  else None.

(** The callback of [hands.onResults].  [hand] is the [x] of the index finger
    tip when a hand was detected, [now] the reading of [Date.now()].  The
    result pairs the emitted gesture, if any, with the new state. *)
Definition onResults (now : Z) (hand : option float) (s : State)
  : option swipe * State :=
  let s1 := updateHandIndicator (bool_decide (is_Some hand)) s in
  match hand with
  | None => (None, s1)
  | Some currentX =>
      if autoTryRunning s1 then (None, s1)
      else if now - lastGestureTime s1 <? GESTURE_COOLDOWN then (None, s1)
      else
        let r := match previousHandX s1 with
                 | Some prevX =>
                     match detectSwipe currentX prevX with
                     | Some g => (Some g, fireSwipe g now s1)
                     | None => (None, s1)
                     end
                 | None => (None, s1)
                 end in
        let s2 := r.2 in
        (r.1, if 100 <? now - lastGestureTime s2
              then set_previousHandX (Some currentX) s2 else s2)
  end.

(** ** Events of the page *)

Inductive event :=
| HandFrame (now : Z) (hand : option float)
| SelectType (type : string)
| ThumbClick (k : nat)
| ToggleTryAll
| TakeSnapshot
| TimerExpires (id : nat).

(** One event: the gesture it emits, stamped with its time, and the new
    state.  A click reaches the [k]-th thumbnail currently on the page. *)
Definition step (e : event) (s : State) : option (Z * swipe) * State :=
  match e with
  | HandFrame now hand =>
      let r := onResults now hand s in ((λ g, (now, g)) <$> r.1, r.2)
  | SelectType type => (None, selectJewelryType type s)
  | ThumbClick k =>
      (None, match thumbButtons s !! k with
             | Some (type, i) => thumbClick type i s
             | None => s
             end)
  | ToggleTryAll => (None, toggleTryAll s)
  | TakeSnapshot => (None, takeSnapshot s)
  | TimerExpires id => (None, timerFire id s)
  end.

(** The pending step timer expires (nothing happens when none is pending). *)
Definition fireNext (s : State) : State :=
  match timers s with
  | [] => s
  | id :: _ => timerFire id s
  end.

(** A sequence of events: the gestures emitted, in order, and the final
    state. *)
Fixpoint run (evs : list event) (s : State) : list (Z * swipe) * State :=
  match evs with
  | [] => ([], s)
  | e :: rest =>
      let r := step e s in
      let r' := run rest r.2 in
      (match r.1 with Some g => g :: r'.1 | None => r'.1 end, r'.2)
  end.

(** The [Date.now()] readings of the hand frames of a sequence. *)
Fixpoint frameTimes (evs : list event) : list Z :=
  match evs with
  | [] => []
  | HandFrame now _ :: rest => now :: frameTimes rest
  | _ :: rest => frameTimes rest
  end.

(** ** Gallery and lightbox *)

(** The part of the page the gallery functions write, as the later revision
    of the script has them ([showGallery], [openLightbox] with its thumbnail
    strip, [closeLightbox], [closeGallery]).  The page is taken to contain the
    elements these functions look up. *)

(** The [src] of the lightbox image: what the page came with, the value
    [undefined] assigned by the script, or a captured frame. *)
Inductive imgsrc :=
| SrcInitial
| SrcUndefined
| SrcData (p : Snapshot).

(** A thumbnail of the strip: its picture and whether it carries the class
    [active]. *)
Record StripThumb := { strip_src : Snapshot; strip_active : bool }.

Record Dom := mkDom {
  galleryShown : bool;
  (* the thumbnails of #gallery-grid: picture, and the index its onclick holds *)
  galleryGrid : list (Snapshot * nat);
  lightboxShown : bool;
  lightboxImage : imgsrc;
  lightboxThumbs : list StripThumb
}.

Definition initialDom : Dom :=
  {| galleryShown := false; galleryGrid := []; lightboxShown := false;
     lightboxImage := SrcInitial; lightboxThumbs := [] |}.

(** What [showGallery] does to the page when the collection is [snaps]: the
    grid is rebuilt, one thumbnail per snapshot, and the modal displayed. *)
Definition showGalleryDom (snaps : list Snapshot) (d : Dom) : Dom :=
  mkDom true (imap (λ index src, (src, index)) snaps)
    (lightboxShown d) (lightboxImage d) (lightboxThumbs d).

(** [openLightbox(selectedIndex)]: reads the collection as it is now. *)
Definition openLightbox (selectedIndex : nat) (s : State) (d : Dom) : Dom :=
  mkDom (galleryShown d) (galleryGrid d) true
    (match autoSnapshots s !! selectedIndex with
     | Some p => SrcData p
     | None => SrcUndefined
     end)
    (imap (λ idx src,
            {| strip_src := src;
               strip_active := bool_decide (idx = selectedIndex) |})
          (autoSnapshots s)).

(** The [onclick] of the [j]-th thumbnail of the strip: its picture becomes
    the main image, every thumbnail loses [active], this one gets it. *)
Definition stripThumbClick (j : nat) (d : Dom) : Dom :=
  match lightboxThumbs d !! j with
  | None => d
  | Some thumb =>
      mkDom (galleryShown d) (galleryGrid d) (lightboxShown d)
        (SrcData (strip_src thumb))
        (imap (λ idx t,
                {| strip_src := strip_src t;
                   strip_active := bool_decide (idx = j) |})
              (lightboxThumbs d))
  end.

(** The [onclick] of the [k]-th thumbnail of the grid. *)
Definition galleryThumbClick (k : nat) (s : State) (d : Dom) : Dom :=
  match galleryGrid d !! k with
  | None => d
  | Some (_, index) => openLightbox index s d
  end.

Definition closeLightbox (d : Dom) : Dom :=
  mkDom (galleryShown d) (galleryGrid d) false (lightboxImage d)
    (lightboxThumbs d).

Definition closeGallery (d : Dom) : Dom :=
  mkDom false (galleryGrid d) (lightboxShown d) (lightboxImage d)
    (lightboxThumbs d).

(** What a logged action does to the gallery. *)
Definition renderEffect (d : Dom) (e : effect) : Dom :=
  match e with
  | ShowGallery shown => showGalleryDom shown d
  | _ => d
  end.

(** Everything that can happen on the page: an event of the script, or a
    click in the gallery or the lightbox. *)
Inductive pageEvent :=
| Script (e : event)
| GalleryThumbClick (k : nat)
| StripThumbClick (j : nat)
| CloseLightbox
| CloseGallery.

(** One page event.  An event of the script acts on the gallery through the
    calls of [showGallery] it makes, which are the actions it adds to the
    log. *)
Definition pageStep (ev : pageEvent) (p : State * Dom) : State * Dom :=
  match ev with
  | Script e =>
      let s' := (step e p.1).2 in
      (s', foldl renderEffect p.2 (drop (length (effects p.1)) (effects s')))
  | GalleryThumbClick k => (p.1, galleryThumbClick k p.1 p.2)
  | StripThumbClick j => (p.1, stripThumbClick j p.2)
  | CloseLightbox => (p.1, closeLightbox p.2)
  | CloseGallery => (p.1, closeGallery p.2)
  end.

Definition pageRun (evs : list pageEvent) (p : State * Dom) : State * Dom :=
  foldl (λ q ev, pageStep ev q) p evs.

Definition initialPage : State * Dom := (initialState, initialDom).

(** * Observations *)

(** The notions the properties below are stated with. *)

(** The position of the first element strictly equal to [v], if any. *)
Fixpoint find_index (l : list Image) (v : jsval) : option nat :=
  match l with
  | [] => None
  | x :: rest => if strict_eq (JImage x) v then Some 0%nat
                 else S <$> find_index rest v
  end.

(** A category is selected and [l] is its cached catalog. *)
Definition browsing (s : State) (l : list Image) : Prop :=
  currentType s ≠ "" ∧ preloadedAssets s !! currentType s = Some l.

(** The image in the slot of the selected category. *)
Definition selection (s : State) : jsval := read_slot (currentType s) s.

(** The index [navigateJewelry] computes for the current selection. *)
Definition current_index (s : State) (l : list Image) : Z :=
  indexOf l (selection s).

(** The selection is item [k] of the catalog. *)
Definition selects (s : State) (l : list Image) (k : nat) : Prop :=
  ∃ x, l !! k = Some x ∧ selection s = JImage x.

(** The slot of the other family is what it was. *)
Definition other_slot_kept (type : string) (s s' : State) : Prop :=
  if is_earrings type then necklaceImg s' = necklaceImg s
  else earringImg s' = earringImg s.

(** The slot of the category [type] as a snapshot shows it. *)
Definition snap_slot (type : string) (p : Snapshot) : jsval :=
  if is_earrings type then snap_earring p else snap_necklace p.

(** The capture taken while item [x] of the selected category is shown on
    top of the selection of [s]. *)
Definition snapshot_with (s : State) (x : Image) : Snapshot :=
  let t := assign_slot (currentType s) (JImage x) s in
  {| snap_earring := earringImg t; snap_necklace := necklaceImg t |}.

(** The state of a run started in [s] over the catalog [l], after [m] steps
    completed and with step [m] waiting for its timer. *)
Definition runState (s : State) (l : list Image) (m : nat) : State :=
  let t := assign_slot (currentType s) (array_get l (Some (Z.of_nat m))) s in
  mkState (earringImg t) (necklaceImg t) (currentType s) (lastGestureTime s)
    (previousHandX s) true (snapshot_with s <$> take m l) m
    (Some (m + nextTimer s)%nat) (preloadedAssets s) (thumbButtons s)
    [(m + nextTimer s)%nat] (S (m + nextTimer s)) (nextRef s) (effects s).

(** The state in which a run over the non-empty catalog [l] ends. *)
Definition doneState (s : State) (l : list Image) : State :=
  let n := length l in
  let t := assign_slot (currentType s)
             (array_get l (Some (Z.of_nat (n - 1)%nat))) s in
  mkState (earringImg t) (necklaceImg t) (currentType s) (lastGestureTime s)
    (previousHandX s) false (snapshot_with s <$> l) n
    (Some (n - 1 + nextTimer s)%nat) (preloadedAssets s) (thumbButtons s)
    [] (S (n - 1 + nextTimer s)) (nextRef s)
    (effects s ++ [ShowGallery (snapshot_with s <$> l)]).

(** A showing of the gallery is the last thing that happened between [t]
    and [s']. *)
Definition gallery_presented (t s' : State) : Prop :=
  ∃ shown, effects s' = effects t ++ [ShowGallery shown].

(** The movement since the baseline exceeds the threshold in absolute value. *)
Definition exceeds_threshold (currentX prevX : float) : bool :=
  (SWIPE_THRESHOLD <? abs (currentX - prevX))%float.

(** The conditions under which a frame yields a gesture: a baseline is
    tracked, the hand has moved from it by more than the threshold, and the
    cooldown since the last gesture has elapsed. *)
Definition swipe_conditions (now : Z) (hand : option float) (s : State) : Prop :=
  ∃ x p, hand = Some x ∧ previousHandX s = Some p ∧
         exceeds_threshold x p = true ∧
         GESTURE_COOLDOWN ≤ now - lastGestureTime s.

(** While a run is active exactly one step timer is pending, the one
    [autoTryTimeout] names; otherwise none is. *)
Definition timers_ok (s : State) : Prop :=
  if autoTryRunning s
  then ∃ id, timers s = [id] ∧ autoTryTimeout s = Some id ∧ (0 < id)%nat
  else timers s = [].

(** What holds of every state the page can reach: timer ids are positive,
    every cached catalog consists of distinct objects, the selected category
    is cached, and the pending timers are those of the run. *)
Definition wf (s : State) : Prop :=
  (0 < nextTimer s)%nat ∧
  (∀ type l, preloadedAssets s !! type = Some l → NoDup (img_ref <$> l)) ∧
  (currentType s ≠ "" → is_Some (preloadedAssets s !! currentType s)) ∧
  timers_ok s.

(** *** The recognizer over a stream of events

    The notions below speak of a stream of events of a fresh page, and of a
    further event or frame that comes after it.  They are read off the
    stream and the gestures emitted along it, not off the variables of the
    tracker. *)

(** The page the stream [pre] leads to. *)
Definition reached (pre : list event) : State := (run pre initialState).2.

(** The time of the last gesture emitted along [pre]; the script starts with
    0 for it. *)
Definition lastEventTime (pre : list event) : Z :=
  match last (run pre initialState).1 with
  | Some (t, _) => t
  | None => 0
  end.

(** The event [e], coming after [pre], emits a gesture. *)
Definition fires (pre : list event) (e : event) : Prop :=
  is_Some (step e (reached pre)).1.

(** A frame at time [t] after [pre] gets past the guards of the recognizer:
    no run is active and the cooldown since the last gesture has elapsed. *)
Definition examined (pre : list event) (t : Z) : Prop :=
  autoTryRunning (reached pre) = false ∧
  GESTURE_COOLDOWN ≤ t - lastEventTime pre.

(** The frame at time [t] with the hand at [p], after [pre], sets the
    baseline: it is examined and emits nothing. *)
Definition sets_baseline (pre : list event) (t : Z) (p : float) : Prop :=
  examined pre t ∧ ¬ fires pre (HandFrame t (Some p)).

(** The event [e] after [pre] leaves a baseline alone: it is no frame
    without a hand, it emits nothing, and it is no frame that sets a
    baseline of its own. *)
Definition keeps_baseline (pre : list event) (e : event) : Prop :=
  (∀ t, e ≠ HandFrame t None) ∧ ¬ fires pre e ∧
  (∀ t x, e = HandFrame t (Some x) → ¬ examined pre t).

(** After [pre] the baseline [p] is tracked: some frame of the stream set it,
    and since then the hand was not lost, no gesture was emitted and no
    other frame set a baseline. *)
Definition baseline_tracked (pre : list event) (p : float) : Prop :=
  ∃ before t after,
    pre = before ++ HandFrame t (Some p) :: after ∧
    sets_baseline before t p ∧
    ∀ mid e rest, after = mid ++ e :: rest →
      keeps_baseline (before ++ HandFrame t (Some p) :: mid) e.

(** The names every object inherits from [Object.prototype]. *)
Definition objectPrototypeMembers : list string :=
  ["constructor"; "hasOwnProperty"; "isPrototypeOf"; "propertyIsEnumerable";
   "toLocaleString"; "toString"; "valueOf"; "__proto__";
   "__defineGetter__"; "__defineSetter__"; "__lookupGetter__";
   "__lookupSetter__"].

(** The event is not a hand frame. *)
Definition not_frame (e : event) : Prop :=
  match e with HandFrame _ _ => False | _ => True end.

(** Every cached catalog is what [preloadCategory] built for its category,
    out of objects allocated before [nextRef]. *)
Definition catalogs_built (s : State) : Prop :=
  ∀ type l, preloadedAssets s !! type = Some l →
    ∃ base, l = new_images type base (image_count type) ∧
            (base + image_count type ≤ nextRef s)%nat.

(** No object belongs to the catalogs of two categories. *)
Definition catalogs_disjoint (s : State) : Prop :=
  ∀ type1 type2 l1 l2 x y,
    type1 ≠ type2 →
    preloadedAssets s !! type1 = Some l1 →
    preloadedAssets s !! type2 = Some l2 →
    x ∈ l1 → y ∈ l2 → img_ref x ≠ img_ref y.

(** The thumbnails on the page are those of the selected category. *)
Definition buttons_current (s : State) : Prop :=
  thumbButtons s =
  map (λ i, (currentType s, i)) (seq 1 (image_count (currentType s))).

(** At most one thumbnail of the strip is highlighted, and the one that is
    shows the picture of the main image. *)
Definition lightbox_coherent (d : Dom) : Prop :=
  ∀ j t, lightboxThumbs d !! j = Some t → strip_active t = true →
    lightboxImage d = SrcData (strip_src t) ∧
    ∀ j' t', lightboxThumbs d !! j' = Some t' → strip_active t' = true →
             j' = j.

(** The value [v] of a slot is no image, or an image of the cached catalog of
    a category of the family [earrings] (earrings or not). *)
Definition slot_from (s : State) (earrings : bool) (v : jsval) : Prop :=
  match v with
  | JImage x =>
      ∃ type l, is_earrings type = earrings ∧
                preloadedAssets s !! type = Some l ∧ x ∈ l
  | _ => True
  end.

(** Each slot holds an image of its own family, if any. *)
Definition slots_ok (s : State) : Prop :=
  slot_from s true (earringImg s) ∧ slot_from s false (necklaceImg s).

(** What holds of the cache and the thumbnails on every reachable page. *)
Definition page_built (s : State) : Prop :=
  catalogs_built s ∧ catalogs_disjoint s ∧ buttons_current s.

(** The grid numbers its thumbnails from 0 in order. *)
Definition grid_indexed (d : Dom) : Prop :=
  ∀ k p index, galleryGrid d !! k = Some (p, index) → index = k.

(** * Sample pages *)

(** A fresh page on which "gold_earrings" was chosen. *)
Definition goldSelected : State :=
  selectJewelryType "gold_earrings" initialState.

(** The same page after the second thumbnail was clicked. *)
Definition goldPicked : State := thumbClick "gold_earrings" 2 goldSelected.

(** The catalog cached for "gold_earrings" on these pages. *)
Definition goldCatalog : list Image := new_images "gold_earrings" 0 5.

(** A page on which "gold_earrings" is chosen, a hand was seen at 0.5 and the
    auto-capture run was then started. *)
Definition goldRunning : State :=
  toggleTryAll (onResults 1000 (Some 0.5%float) goldSelected).2.

(** The example of the specification: "diamond_necklaces" chosen on a fresh
    page; its catalog has six images. *)
Definition diamondSelected : State :=
  selectJewelryType "diamond_necklaces" initialState.

(** The catalog cached for "diamond_necklaces" on that page. *)
Definition diamondCatalog : list Image := new_images "diamond_necklaces" 0 6.

(** A page on which a run over "diamond_necklaces" has completed. *)
Definition diamondDone : State :=
  Nat.iter 6 fireNext (toggleTryAll diamondSelected).

(** The example of the specification, continued: the hand rests at 0.50,
    moves to 0.40, and after the cooldown moves from 0.40 to 0.50. *)
Definition swipeFrames : list event :=
  [HandFrame 1000 (Some 0.5%float); HandFrame 1050 (Some 0.5%float);
   HandFrame 1100 (Some 0.4%float); HandFrame 1500 (Some 0.6%float);
   HandFrame 1900 (Some 0.4%float); HandFrame 1950 (Some 0.5%float)].

(** A fresh page on which a category the script has no count for was
    chosen. *)
Definition silverSelected : State :=
  selectJewelryType "silver_rings" initialState.

(** The page of [goldPicked] after "diamond_earrings" was chosen. *)
Definition diamondAfterGold : State :=
  selectJewelryType "diamond_earrings" goldPicked.

(** The catalog cached for "diamond_earrings" on that page. *)
Definition diamondEarrings : list Image := new_images "diamond_earrings" 5 5.

(** * Properties *)

(** ** Field access after the setters *)

Lemma read_assign_slot type v s : read_slot type (assign_slot type v s) = v.
Proof. unfold read_slot, assign_slot. by destruct (is_earrings type). Qed.

Lemma currentType_assign_slot type v s :
  currentType (assign_slot type v s) = currentType s.
Proof. unfold assign_slot. by destruct (is_earrings type). Qed.

Lemma preloadedAssets_assign_slot type v s :
  preloadedAssets (assign_slot type v s) = preloadedAssets s.
Proof. unfold assign_slot. by destruct (is_earrings type). Qed.

(** ** Stopping a run *)

(** [stopAutoTry] clears the running flag and touches nothing else of the
    script's variables; on the page it may cancel a timer and show the
    gallery. *)
Lemma stopAutoTry_shape s :
  ∃ tm ef,
    stopAutoTry s =
    mkState (earringImg s) (necklaceImg s) (currentType s) (lastGestureTime s)
      (previousHandX s) false (autoSnapshots s) (autoTryIndex s)
      (autoTryTimeout s) (preloadedAssets s) (thumbButtons s) tm
      (nextTimer s) (nextRef s) ef.
Proof.
  unfold stopAutoTry, showGallery, clearTimeout, emit.
  destruct s as [? ? ? ? ? ? snaps ? [id|] ? ? ? ? ? ?]; simpl;
    [destruct (Nat.eqb id 0); simpl|];
    destruct (Nat.ltb 0 (length snaps)); do 2 eexists; reflexivity.
Qed.

(** ** [indexOf] *)

Lemma indexOf_from_find k l v :
  indexOf_from k l v =
  match find_index l v with Some i => k + Z.of_nat i | None => -1 end.
Proof.
  revert k. induction l as [|x rest IH]; intros k; simpl; [done|].
  destruct (strict_eq (JImage x) v); [lia|].
  rewrite IH. destruct (find_index rest v); simpl; lia.
Qed.

Lemma indexOf_find l v :
  indexOf l v = match find_index l v with Some i => Z.of_nat i | None => -1 end.
Proof. unfold indexOf. rewrite indexOf_from_find. by destruct (find_index l v). Qed.

Lemma find_index_Some l v i :
  find_index l v = Some i →
  ∃ x, l !! i = Some x ∧ strict_eq (JImage x) v = true.
Proof.
  revert i. induction l as [|x rest IH]; intros i; simpl; [done|].
  destruct (strict_eq (JImage x) v) eqn:E.
  - intros [= <-]. eauto.
  - destruct (find_index rest v) as [j|]; simpl; [|done].
    intros [= <-]. destruct (IH j eq_refl) as (y & ? & ?). eauto.
Qed.

Lemma find_index_None l v :
  (∀ x, x ∈ l → strict_eq (JImage x) v = false) → find_index l v = None.
Proof.
  induction l as [|x rest IH]; intros H; simpl; [done|].
  rewrite H by left. rewrite IH; [done|]. intros y Hy. apply H. by right.
Qed.

Lemma find_index_NoDup l i x :
  NoDup (img_ref <$> l) → l !! i = Some x → find_index l (JImage x) = Some i.
Proof.
  revert i. induction l as [|y rest IH]; intros i Hnd Hi; [done|].
  rewrite fmap_cons in Hnd. apply NoDup_cons in Hnd as [Hy Hnd].
  destruct i as [|i]; simpl in *; unfold strict_eq.
  - injection Hi as ->. by rewrite Nat.eqb_refl.
  - destruct (Nat.eqb (img_ref y) (img_ref x)) eqn:E.
    + apply Nat.eqb_eq in E. exfalso. apply Hy. rewrite E.
      apply list_elem_of_fmap. exists x. split; [done|].
      by eapply list_elem_of_lookup_2.
    + by rewrite (IH i Hnd Hi).
Qed.

Lemma indexOf_range l v : -1 ≤ indexOf l v < Z.of_nat (length l).
Proof.
  rewrite indexOf_find. destruct (find_index l v) as [i|] eqn:E; [|lia].
  apply find_index_Some in E as (x & Hx & _). apply lookup_lt_Some in Hx. lia.
Qed.

(** In a catalog of distinct objects, item [j] is found at position [j]. *)
Lemma indexOf_item l j :
  NoDup (img_ref <$> l) → (j < length l)%nat →
  indexOf l (array_get l (Some (Z.of_nat j))) = Z.of_nat j.
Proof.
  intros Hnd Hj. unfold array_get.
  destruct (Z.ltb_spec (Z.of_nat j) 0) as [?|_]; [lia|].
  rewrite Nat2Z.id. destruct (lookup_lt_is_Some_2 l j Hj) as [x Hx].
  rewrite Hx, indexOf_find. by rewrite (find_index_NoDup l j x).
Qed.

Lemma indexOf_null l : indexOf l JNull = -1.
Proof. rewrite indexOf_find, find_index_None; [done|]. by intros x _. Qed.

(** ** Catalog navigator *)

Lemma navigateJewelry_browsing s l d :
  browsing s l →
  navigateJewelry d s =
  assign_slot (currentType s)
    (array_get l (js_rem (current_index s l + d + Z.of_nat (length l))
                         (Z.of_nat (length l)))) s.
Proof.
  intros [Hty Hl]. unfold navigateJewelry.
  apply String.eqb_neq in Hty. by rewrite Hty, Hl.
Qed.

Lemma browsing_assign_slot type v s l :
  browsing s l → browsing (assign_slot type v s) l.
Proof.
  unfold browsing.
  by rewrite currentType_assign_slot, preloadedAssets_assign_slot.
Qed.

Lemma selection_assign_slot v s :
  selection (assign_slot (currentType s) v s) = v.
Proof.
  unfold selection. by rewrite currentType_assign_slot, read_assign_slot.
Qed.

Lemma array_get_item (l : list Image) k :
  (k < length l)%nat →
  ∃ x, l !! k = Some x ∧ array_get l (Some (Z.of_nat k)) = JImage x.
Proof.
  intros Hk. destruct (lookup_lt_is_Some_2 l k Hk) as [x Hx].
  exists x. split; [done|]. unfold array_get.
  destruct (Z.ltb_spec (Z.of_nat k) 0); [lia|]. by rewrite Nat2Z.id, Hx.
Qed.

(** Navigation over a catalog [l] of distinct image objects, as
    [preloadCategory] builds them. *)
Section DistinctCatalog.
Context (l : list Image) (Hnd : NoDup (img_ref <$> l)).

Let N : Z := Z.of_nat (length l).

(** An index the script can compute lies in the catalog. *)
Lemma current_index_bound s (i : nat) :
  current_index s l = Z.of_nat i → 0 ≤ Z.of_nat i < N.
Proof.
  intros Hi. pose proof (indexOf_range l (selection s)) as Hr.
  fold (current_index s l) in Hr. unfold N. lia.
Qed.

(** One call from a proper index [i]: the new index is [(i + dir) mod N]. *)
Lemma navigateJewelry_index s (i : nat) d :
  browsing s l → current_index s l = Z.of_nat i → d = 1 ∨ d = -1 →
  let s' := navigateJewelry d s in
  let j := Z.to_nat ((Z.of_nat i + d) mod N) in
  browsing s' l ∧ (j < length l)%nat ∧
  selection s' = array_get l (Some (Z.of_nat j)) ∧
  current_index s' l = Z.of_nat j.
Proof.
  intros Hb Hi Hd s' j.
  pose proof (current_index_bound s i Hi) as Hr.
  pose proof (Z.mod_pos_bound (Z.of_nat i + d) N ltac:(lia)) as Hm.
  assert (Hj : Z.of_nat j = (Z.of_nat i + d) mod N) by (unfold j; lia).
  assert (Hs' : s' = assign_slot (currentType s)
                       (array_get l (Some (Z.of_nat j))) s).
  { unfold s'. rewrite (navigateJewelry_browsing s l d Hb), Hi.
    fold N. unfold js_rem. destruct (Z.eqb_spec N 0); [lia|].
    rewrite Z.rem_mod_nonneg by lia.
    replace (Z.of_nat i + d + N) with (Z.of_nat i + d + 1 * N) by lia.
    rewrite Z.mod_add by lia. by rewrite Hj. }
  assert (Hjl : (j < length l)%nat) by (unfold N in *; lia).
  split; [rewrite Hs'; by apply browsing_assign_slot|].
  split; [done|].
  assert (Hsel : selection s' = array_get l (Some (Z.of_nat j)))
    by (rewrite Hs'; apply selection_assign_slot).
  split; [done|].
  unfold current_index. rewrite Hsel. by apply indexOf_item.
Qed.

(** [m] calls in one direction from index [i] lead to
    [(i + m * dir) mod N]. *)
Lemma navigateJewelry_iter s (i : nat) d (m : nat) :
  browsing s l → current_index s l = Z.of_nat i → d = 1 ∨ d = -1 →
  let s' := Nat.iter m (navigateJewelry d) s in
  browsing s' l ∧
  current_index s' l = (Z.of_nat i + Z.of_nat m * d) mod N.
Proof.
  intros Hb Hi Hd.
  pose proof (current_index_bound s i Hi) as Hr.
  induction m as [|m [IHb IHi]]; simpl.
  - split; [done|]. rewrite Hi, Z.add_0_r. by rewrite Z.mod_small by lia.
  - set (t := Nat.iter m (navigateJewelry d) s) in *.
    pose proof (Z.mod_pos_bound (Z.of_nat i + Z.of_nat m * d) N
                  ltac:(lia)) as Hm.
    set (k := Z.to_nat ((Z.of_nat i + Z.of_nat m * d) mod N)).
    assert (Hk : current_index t l = Z.of_nat k) by (unfold k; lia).
    destruct (navigateJewelry_index t k d IHb Hk Hd) as (Hb' & _ & _ & Hi').
    split; [done|]. rewrite Hi'.
    rewrite Z2Nat.id by (apply Z.mod_pos_bound; lia).
    unfold k. rewrite Z2Nat.id by lia.
    rewrite Zplus_mod_idemp_l. f_equal. lia.
Qed.

(** C7: with a category selected, its catalog of distinct images cached and
    the current selection at index [i] of it, [navigateJewelry(1)] followed
    by [navigateJewelry(-1)] leaves the selection at index [i] again, on
    item [i] of the catalog. *)
Theorem navigate_next_then_previous s (i : nat) :
  browsing s l → current_index s l = Z.of_nat i →
  let s' := navigateJewelry (-1) (navigateJewelry 1 s) in
  current_index s' l = Z.of_nat i ∧ selects s' l i.
Proof.
  intros Hb Hi s'.
  pose proof (current_index_bound s i Hi) as Hr.
  destruct (navigateJewelry_index s i 1 Hb Hi (or_introl eq_refl))
    as (Hb1 & Hj1 & _ & Hi1).
  destruct (navigateJewelry_index _ _ (-1) Hb1 Hi1 (or_intror eq_refl))
    as (_ & _ & Hsel & Hi2).
  fold s' in Hsel, Hi2.
  assert (Hback : Z.to_nat
            ((Z.of_nat (Z.to_nat ((Z.of_nat i + 1) mod N)) + -1) mod N) = i).
  { rewrite Z2Nat.id by (apply Z.mod_pos_bound; lia).
    rewrite Zplus_mod_idemp_l.
    replace (Z.of_nat i + 1 + -1) with (Z.of_nat i) by lia.
    rewrite Z.mod_small by lia. lia. }
  rewrite Hback in Hsel, Hi2. split; [done|].
  destruct (array_get_item l i ltac:(unfold N in *; lia)) as (x & Hx & Hget).
  exists x. by rewrite Hsel.
Qed.

(** C8: from index [i] of a catalog of [N] distinct images, after any
    number [m] of calls of [navigateJewelry] in one direction the index is
    [(i + m * dir) mod N], hence within [0, N), and after [N] calls it is
    [i] again. *)
Theorem navigate_full_cycle s (i : nat) d :
  browsing s l → current_index s l = Z.of_nat i → d = 1 ∨ d = -1 →
  (∀ m : nat,
     let k := current_index (Nat.iter m (navigateJewelry d) s) l in
     k = (Z.of_nat i + Z.of_nat m * d) mod Z.of_nat (length l) ∧
     0 ≤ k < Z.of_nat (length l)) ∧
  current_index (Nat.iter (length l) (navigateJewelry d) s) l = Z.of_nat i.
Proof.
  intros Hb Hi Hd.
  pose proof (current_index_bound s i Hi) as Hr. fold N.
  split.
  - intros m k.
    destruct (navigateJewelry_iter s i d m Hb Hi Hd) as [_ Hk].
    fold k in Hk. split; [done|]. rewrite Hk. apply Z.mod_pos_bound. lia.
  - destruct (navigateJewelry_iter s i d (length l) Hb Hi Hd) as [_ Hk].
    rewrite Hk. fold N. rewrite (Z.mul_comm _ d), Z.mod_add by lia.
    apply Z.mod_small. lia.
Qed.
End DistinctCatalog.

Lemma navigate_next_then_previous_witness :
  let s' := navigateJewelry (-1) (navigateJewelry 1 goldPicked) in
  current_index s' goldCatalog = 1 ∧ selects s' goldCatalog 1.
Proof.
  apply (navigate_next_then_previous goldCatalog ltac:(compute_done)
           goldPicked 1).
  - split; [compute_done | by vm_compute].
  - by vm_compute.
Defined.

Lemma navigate_full_cycle_witness :
  (∀ m : nat,
     let k := current_index (Nat.iter m (navigateJewelry (-1)) goldPicked)
                goldCatalog in
     k = (Z.of_nat 1 + Z.of_nat m * (-1)) mod Z.of_nat (length goldCatalog) ∧
     0 ≤ k < Z.of_nat (length goldCatalog)) ∧
  current_index (Nat.iter (length goldCatalog) (navigateJewelry (-1)) goldPicked)
    goldCatalog = Z.of_nat 1.
Proof.
  apply (navigate_full_cycle goldCatalog ltac:(compute_done)
           goldPicked 1 (-1)).
  - split; [compute_done | by vm_compute].
  - by vm_compute.
  - by right.
Defined.

(** C9: with a category selected and its catalog of [N >= 1] images cached,
    when the slot holds [null] or an image that is no element of the catalog,
    [navigateJewelry(1)] selects item 0 and [navigateJewelry(-1)] selects
    item [N - 2], or item 0 when [N = 1]. *)
Theorem navigate_from_no_selection s l :
  browsing s l → (1 ≤ length l)%nat →
  selection s = JNull ∨
    (∀ x, x ∈ l → strict_eq (JImage x) (selection s) = false) →
  selects (navigateJewelry 1 s) l 0 ∧
  selects (navigateJewelry (-1) s) l
    (if decide (length l = 1%nat) then 0 else length l - 2).
Proof.
  intros Hb HN Hsel.
  assert (Hidx : current_index s l = -1).
  { unfold current_index. destruct Hsel as [->|Hno]; [apply indexOf_null|].
    by rewrite indexOf_find, find_index_None. }
  assert (Hsel' : ∀ d k, (k < length l)%nat →
            js_rem (-1 + d + Z.of_nat (length l)) (Z.of_nat (length l))
              = Some (Z.of_nat k) →
            selects (navigateJewelry d s) l k).
  { intros d k Hk Hrem.
    rewrite (navigateJewelry_browsing s l d Hb), Hidx, Hrem.
    destruct (array_get_item l k Hk) as (x & Hx & Hget).
    exists x. split; [done|]. by rewrite selection_assign_slot. }
  assert (Hne : (Z.of_nat (length l) =? 0) = false) by (apply Z.eqb_neq; lia).
  split.
  - apply Hsel'; [lia|]. unfold js_rem. rewrite Hne. f_equal.
    replace (-1 + 1 + Z.of_nat (length l)) with (Z.of_nat (length l)) by lia.
    by rewrite Z.rem_same by lia.
  - destruct (decide (length l = 1%nat)) as [E|E].
    + apply Hsel'; [lia|]. unfold js_rem. by rewrite E.
    + apply Hsel'; [lia|]. unfold js_rem. rewrite Hne. f_equal.
      rewrite Z.rem_small by lia. lia.
Qed.

Lemma navigate_from_no_selection_witness :
  selects (navigateJewelry 1 goldSelected) goldCatalog 0 ∧
  selects (navigateJewelry (-1) goldSelected) goldCatalog 3.
Proof.
  apply (navigate_from_no_selection goldSelected goldCatalog).
  - split; [compute_done | by vm_compute].
  - vm_compute. lia.
  - by left.
Defined.

(** ** Which slot an operation writes *)

Lemma append_nil s : "" +:+ s = s.
Proof. reflexivity. Qed.

Lemma append_cons c s1 s2 : String c s1 +:+ s2 = String c (s1 +:+ s2).
Proof. reflexivity. Qed.

Lemma prefix_app needle hay :
  String.prefix needle hay = true ↔ ∃ rest, hay = needle +:+ rest.
Proof.
  revert needle. induction hay as [|c' hay IH]; intros [|c needle]; simpl.
  - split; [by exists "" | done].
  - split; [done | by intros [? ?]].
  - split; [by exists (String c' hay) | done].
  - destruct (Ascii.ascii_dec c c') as [->|Hne].
    + rewrite IH. split; intros [rest Hr]; exists rest;
        rewrite append_cons in *; congruence.
    + split; [done|]. intros [rest Hr]. rewrite append_cons in Hr. congruence.
Qed.

(** [includes needle hay] holds exactly when [needle] occurs in [hay]. *)
Lemma includes_spec needle hay :
  includes needle hay = true ↔ ∃ before rest, hay = before +:+ needle +:+ rest.
Proof.
  induction hay as [|c hay IH]; cbn [includes];
    rewrite orb_true_iff, prefix_app.
  - split.
    + intros [[rest Hr]|?]; [|done]. by exists "", rest.
    + intros (before & rest & Hr). left.
      destruct before as [|c before]; [by exists rest|].
      rewrite append_cons in Hr. done.
  - rewrite IH. split.
    + intros [[rest Hr]|(before & rest & Hr)].
      * by exists "", rest.
      * exists (String c before), rest. rewrite append_cons. by rewrite Hr.
    + intros (before & rest & Hr). destruct before as [|c' before].
      * left. by exists rest.
      * right. rewrite append_cons in Hr. injection Hr as _ Hr.
        by exists before, rest.
Qed.

Lemma other_slot_kept_refl type s : other_slot_kept type s s.
Proof. unfold other_slot_kept. by destruct (is_earrings type). Qed.

Lemma other_slot_kept_assign type v s :
  other_slot_kept type s (assign_slot type v s).
Proof.
  unfold other_slot_kept, assign_slot. by destruct (is_earrings type).
Qed.

Lemma stopAutoTry_slots s :
  earringImg (stopAutoTry s) = earringImg s ∧
  necklaceImg (stopAutoTry s) = necklaceImg s.
Proof. by destruct (stopAutoTry_shape s) as (tm & ef & ->). Qed.

Lemma other_slot_kept_stopAutoTry type s :
  other_slot_kept type s (stopAutoTry s).
Proof.
  unfold other_slot_kept. destruct (stopAutoTry_slots s).
  by destruct (is_earrings type).
Qed.

Lemma other_slot_kept_runAutoStep s :
  other_slot_kept (currentType s) s (runAutoStep s).
Proof.
  unfold runAutoStep.
  destruct (autoTryRunning s); simpl; [|apply other_slot_kept_refl].
  destruct (preloadedAssets s !! currentType s) as [assets|];
    [|apply other_slot_kept_stopAutoTry].
  destruct (Nat.leb (length assets) (autoTryIndex s));
    [apply other_slot_kept_stopAutoTry|].
  unfold other_slot_kept, assign_slot.
  by destruct (is_earrings (currentType s)).
Qed.

(** C10: [navigateJewelry], the click on a thumbnail and every step of the
    auto-capture run ([runAutoStep], the timer callback that captures and
    calls it, the expiry of a timer and the toggle that starts the run) leave
    the necklace selection as it was when the category name contains
    "earrings", and leave the earring selection as it was for every other
    category. *)
Theorem operations_keep_other_slot s :
  (∀ dir, other_slot_kept (currentType s) s (navigateJewelry dir s)) ∧
  (∀ type i, other_slot_kept type s (thumbClick type i s)) ∧
  other_slot_kept (currentType s) s (runAutoStep s) ∧
  other_slot_kept (currentType s) s (autoStepCallback s) ∧
  (∀ id, other_slot_kept (currentType s) s (timerFire id s)) ∧
  other_slot_kept (currentType s) s (toggleTryAll s).
Proof.
  assert (Hcb : ∀ t, currentType t = currentType s →
            earringImg t = earringImg s → necklaceImg t = necklaceImg s →
            other_slot_kept (currentType s) s (runAutoStep t)).
  { intros t Hc He Hn. pose proof (other_slot_kept_runAutoStep t) as H.
    unfold other_slot_kept in *. rewrite Hc, He, Hn in H. done. }
  split; [|split; [|split; [|split; [|split]]]].
  - intros dir. unfold navigateJewelry.
    destruct (String.eqb (currentType s) ""); [apply other_slot_kept_refl|].
    destruct (preloadedAssets s !! currentType s);
      [apply other_slot_kept_assign | apply other_slot_kept_refl].
  - intros type i. unfold thumbClick.
    destruct (preloadedAssets s !! type);
      [apply other_slot_kept_assign | apply other_slot_kept_refl].
  - apply other_slot_kept_runAutoStep.
  - unfold autoStepCallback. by apply Hcb.
  - intros id. unfold timerFire.
    destruct (bool_decide (id ∈ timers s)); [|apply other_slot_kept_refl].
    unfold autoStepCallback. by apply Hcb.
  - unfold toggleTryAll.
    destruct (String.eqb (currentType s) "");
      [unfold other_slot_kept; by destruct (is_earrings (currentType s))|].
    destruct (autoTryRunning s); [apply other_slot_kept_stopAutoTry|].
    unfold startAutoTry. by apply Hcb.
Qed.

(** ** Auto-capture sequencer *)

Lemma remove_timer_single id : remove_timer id [id] = [].
Proof.
  unfold remove_timer. rewrite filter_cons, decide_False by (by intros ?).
  done.
Qed.

Lemma toggleTryAll_start s l :
  browsing s l → autoTryRunning s = false → timers s = [] →
  (0 < length l)%nat → toggleTryAll s = runState s l 0.
Proof.
  intros [Hty Hl] Hrun Htm HN. unfold toggleTryAll, startAutoTry, runAutoStep.
  apply String.eqb_neq in Hty. rewrite Hty, Hrun. simpl. rewrite Hl.
  destruct (Nat.leb_spec (length l) 0) as [?|_]; [lia|].
  unfold runState, setTimeout_step, assign_slot.
  destruct (is_earrings (currentType s)); simpl; by rewrite Htm.
Qed.

Lemma snapshot_with_item s l m x :
  l !! m = Some x →
  let t := assign_slot (currentType s) (array_get l (Some (Z.of_nat m))) s in
  {| snap_earring := earringImg t; snap_necklace := necklaceImg t |}
  = snapshot_with s x.
Proof.
  intros Hx. unfold array_get.
  destruct (Z.ltb_spec (Z.of_nat m) 0); [lia|]. by rewrite Nat2Z.id, Hx.
Qed.

Lemma fireNext_runState s l m :
  browsing s l → (S m < length l)%nat →
  fireNext (runState s l m) = runState s l (S m).
Proof.
  intros [Hty Hl] Hm.
  destruct (lookup_lt_is_Some_2 l m ltac:(lia)) as [x Hx].
  unfold fireNext, timerFire. cbn [timers runState].
  rewrite bool_decide_eq_true_2 by left. rewrite remove_timer_single.
  unfold autoStepCallback, captureToGallery, runAutoStep. simpl.
  rewrite Hl. destruct (Nat.leb_spec (length l) (S m)) as [?|_]; [lia|].
  rewrite (snapshot_with_item s l m x Hx).
  unfold runState, setTimeout_step. rewrite (take_S_r l m x Hx), fmap_app.
  unfold assign_slot. by destruct (is_earrings (currentType s)).
Qed.

Lemma stopAutoTry_no_timer s :
  timers s = [] →
  stopAutoTry s =
  if Nat.ltb 0 (length (autoSnapshots s))
  then showGallery (set_autoTryRunning false s)
  else set_autoTryRunning false s.
Proof.
  intros Htm. unfold stopAutoTry.
  assert (Hclr : ∀ id, clearTimeout id (set_autoTryRunning false s)
                       = set_autoTryRunning false s).
  { intros id. unfold clearTimeout, set_autoTryRunning. simpl.
    by rewrite Htm. }
  cbn [autoTryTimeout set_autoTryRunning].
  destruct (autoTryTimeout s) as [id|]; [|done].
  destruct (Nat.eqb id 0); [done|]. by rewrite Hclr.
Qed.

Lemma fireNext_runState_last s l m :
  browsing s l → S m = length l →
  fireNext (runState s l m) = doneState s l.
Proof.
  intros [Hty Hl] Hm.
  destruct (lookup_lt_is_Some_2 l m ltac:(lia)) as [x Hx].
  unfold fireNext, timerFire. cbn [timers runState].
  rewrite bool_decide_eq_true_2 by left. rewrite remove_timer_single.
  unfold autoStepCallback, captureToGallery, runAutoStep. simpl.
  rewrite Hl. destruct (Nat.leb_spec (length l) (S m)) as [_|?]; [|lia].
  rewrite (snapshot_with_item s l m x Hx).
  assert (Hall : (snapshot_with s <$> take m l) ++ [snapshot_with s x]
                 = snapshot_with s <$> l).
  { rewrite <- (take_ge l (S m)) at 2 by lia.
    by rewrite (take_S_r l m x Hx), fmap_app. }
  rewrite Hall, stopAutoTry_no_timer by done. simpl.
  rewrite length_fmap.
  destruct (Nat.ltb_spec 0 (length l)) as [_|?]; [|lia].
  unfold doneState, showGallery, emit. simpl. rewrite <- Hm. simpl.
  by rewrite Nat.sub_0_r.
Qed.

Lemma run_prefix s l m :
  browsing s l → autoTryRunning s = false → timers s = [] →
  (m < length l)%nat →
  Nat.iter m fireNext (toggleTryAll s) = runState s l m.
Proof.
  intros Hb Hrun Htm. induction m as [|m IH]; intros Hm; simpl.
  - by apply toggleTryAll_start.
  - rewrite IH by lia. by apply fireNext_runState.
Qed.

Lemma run_complete s l :
  browsing s l → autoTryRunning s = false → timers s = [] →
  (0 < length l)%nat →
  Nat.iter (length l) fireNext (toggleTryAll s) = doneState s l.
Proof.
  intros Hb Hrun Htm HN. destruct (length l) as [|m] eqn:E; [lia|]. simpl.
  rewrite (run_prefix s l m) by (done || lia).
  apply fireNext_runState_last; [done | lia].
Qed.

Lemma toggleTryAll_empty_catalog s :
  browsing s [] → autoTryRunning s = false → timers s = [] →
  toggleTryAll s =
  set_autoTryRunning false
    (set_autoTryIndex 0%nat (set_autoSnapshots [] (set_autoTryRunning true s))).
Proof.
  intros [Hty Hl] Hrun Htm. unfold toggleTryAll, startAutoTry, runAutoStep.
  apply String.eqb_neq in Hty. rewrite Hty, Hrun. simpl. rewrite Hl. simpl.
  by rewrite stopAutoTry_no_timer.
Qed.

Lemma snap_slot_snapshot_with s x :
  snap_slot (currentType s) (snapshot_with s x) = JImage x.
Proof.
  unfold snap_slot, snapshot_with, assign_slot.
  by destruct (is_earrings (currentType s)).
Qed.

(** C1: started by the toggle on an idle page whose selected category has a
    cached catalog of [N] images, and left to itself until [N] timers have
    expired, the run collects exactly [N] snapshots, the [i]-th showing item
    [i] of the catalog in the slot of the category, and is then idle: the
    running flag is false and no timer is pending.  Before that, after
    [m < N] timers, it is still running with [m] snapshots. *)
Theorem auto_capture_run s l :
  browsing s l → autoTryRunning s = false → timers s = [] →
  let run := λ m, Nat.iter m fireNext (toggleTryAll s) in
  let s' := run (length l) in
  length (autoSnapshots s') = length l ∧
  (∀ i x, l !! i = Some x →
     ∃ p, autoSnapshots s' !! i = Some p ∧
          snap_slot (currentType s) p = JImage x) ∧
  autoTryRunning s' = false ∧ timers s' = [] ∧
  (∀ m, (m < length l)%nat →
     autoTryRunning (run m) = true ∧ length (autoSnapshots (run m)) = m).
Proof.
  intros Hb Hrun Htm run s'.
  assert (Hpre : ∀ m, (m < length l)%nat →
            autoTryRunning (run m) = true ∧ length (autoSnapshots (run m)) = m).
  { intros m Hm. unfold run. rewrite (run_prefix s l m) by done. simpl.
    split; [done|]. rewrite length_fmap, length_take. lia. }
  cut (length (autoSnapshots s') = length l ∧
       (∀ i x, l !! i = Some x →
          ∃ p, autoSnapshots s' !! i = Some p ∧
               snap_slot (currentType s) p = JImage x) ∧
       autoTryRunning s' = false ∧ timers s' = []).
  { intros (H1 & H2 & H3 & H4).
    exact (conj H1 (conj H2 (conj H3 (conj H4 Hpre)))). }
  clear Hpre. destruct l as [|x0 l0].
  - unfold s', run. simpl. rewrite toggleTryAll_empty_catalog by done.
    simpl. by repeat split.
  - set (l := x0 :: l0) in *.
    assert (Hs' : s' = doneState s l).
    { unfold s', run. apply run_complete; [done..|]. simpl. lia. }
    rewrite Hs'. unfold doneState.
    cbn [autoSnapshots autoTryRunning timers].
    rewrite length_fmap. repeat split; try done.
    intros i x Hx. exists (snapshot_with s x).
    split; [by rewrite list_lookup_fmap, Hx | apply snap_slot_snapshot_with].
Qed.

Lemma auto_capture_run_witness :
  let s' := Nat.iter 6 fireNext (toggleTryAll diamondSelected) in
  length (autoSnapshots s') = 6%nat ∧
  (∃ p, autoSnapshots s' !! 5%nat = Some p ∧
        snap_slot "diamond_necklaces" p
        = JImage {| img_ref := 5; img_src := "diamond_necklaces/6.png" |}) ∧
  autoTryRunning s' = false.
Proof.
  assert (Hb : browsing diamondSelected diamondCatalog)
    by (split; [compute_done | by vm_compute]).
  destruct (auto_capture_run diamondSelected diamondCatalog Hb eq_refl eq_refl)
    as (Hlen & Hitem & Hidle & _).
  split; [exact Hlen|]. split; [|exact Hidle].
  exact (Hitem 5%nat _ eq_refl).
Defined.

Lemma toggleTryAll_cancel s l k :
  browsing s l → (0 < nextTimer s)%nat → (k < length l)%nat →
  let t := runState s l k in
  let s' := toggleTryAll t in
  autoSnapshots s' = snapshot_with s <$> take k l ∧
  autoTryRunning s' = false ∧ timers s' = [] ∧
  effects s' = effects t ++
               (if decide (0 < k)%nat then [ShowGallery (autoSnapshots s')]
                else []).
Proof.
  intros [Hty Hl] Hnt Hk t s'.
  assert (Hlen : length (snapshot_with s <$> take k l) = k)
    by (rewrite length_fmap, length_take; lia).
  unfold s', t, toggleTryAll, stopAutoTry, clearTimeout, showGallery, emit, runState.
  cbn
    [currentType autoTryRunning autoTryTimeout set_autoTryRunning
     autoSnapshots timers earringImg necklaceImg lastGestureTime previousHandX
     autoTryIndex preloadedAssets thumbButtons nextTimer nextRef effects app].
  apply String.eqb_neq in Hty. rewrite Hty.
  destruct (Nat.eqb_spec (k + nextTimer s) 0) as [?|_]; [lia|].
  cbn [autoSnapshots timers]. rewrite remove_timer_single, Hlen.
  destruct (Nat.ltb_spec 0 k) as [Hpos|Hz].
  - rewrite decide_True by done. cbn [autoSnapshots autoTryRunning timers effects]. by repeat split.
  - rewrite decide_False by lia. rewrite app_nil_r. cbn [autoSnapshots autoTryRunning timers effects]. by repeat split.
Qed.

(** C5: when the toggle is invoked again after exactly [k < N] steps of a
    run have completed, the collection holds exactly [k] snapshots, the run is
    idle with no timer pending, so that the step that was waiting never
    captures, and the gallery is shown by that call if and only if [k > 0]. *)
Theorem auto_capture_cancel s l k :
  browsing s l → autoTryRunning s = false → timers s = [] →
  (0 < nextTimer s)%nat → (k < length l)%nat →
  let t := Nat.iter k fireNext (toggleTryAll s) in
  let s' := toggleTryAll t in
  length (autoSnapshots s') = k ∧
  autoTryRunning s' = false ∧ timers s' = [] ∧
  (∀ id, timerFire id s' = s') ∧
  (gallery_presented t s' ↔ (0 < k)%nat) ∧
  ((0 < k)%nat ∨ effects s' = effects t).
Proof.
  intros Hb Hrun Htm Hnt Hk t s'.
  assert (Ht : t = runState s l k) by (by apply run_prefix).
  destruct (toggleTryAll_cancel s l k Hb Hnt Hk) as (Hsn & Hr & Ht0 & Hef).
  rewrite <- Ht in Hsn, Hr, Ht0, Hef. fold s' in Hsn, Hr, Ht0, Hef.
  split; [rewrite Hsn, length_fmap, length_take; lia|].
  split; [done|]. split; [done|].
  split; [intros id; unfold timerFire; by rewrite Ht0|].
  destruct (decide (0 < k)%nat) as [Hpos|Hz].
  - split; [|by left]. split; [done|]. intros _. by eexists.
  - rewrite app_nil_r in Hef. split; [|by right].
    split; [|lia]. intros [shown Hs]. rewrite Hef in Hs.
    apply (f_equal length) in Hs. rewrite length_app in Hs. simpl in Hs. lia.
Qed.

Lemma auto_capture_cancel_witness :
  let t := Nat.iter 2 fireNext (toggleTryAll diamondSelected) in
  let s' := toggleTryAll t in
  length (autoSnapshots s') = 2%nat ∧
  autoTryRunning s' = false ∧ timers s' = [] ∧
  (∀ id, timerFire id s' = s') ∧
  (gallery_presented t s' ↔ (0 < 2)%nat) ∧
  ((0 < 2)%nat ∨ effects s' = effects t).
Proof.
  apply (auto_capture_cancel diamondSelected diamondCatalog 2).
  - split; [compute_done | by vm_compute].
  - reflexivity.
  - reflexivity.
  - vm_compute. lia.
  - vm_compute. lia.
Defined.

Lemma stopAutoTry_sequencer s :
  autoSnapshots (stopAutoTry s) = autoSnapshots s ∧
  autoTryIndex (stopAutoTry s) = autoTryIndex s ∧
  autoTryRunning (stopAutoTry s) = false.
Proof. by destruct (stopAutoTry_shape s) as (tm & ef & ->). Qed.

Lemma runAutoStep_sequencer s :
  autoSnapshots (runAutoStep s) = autoSnapshots s ∧
  autoTryIndex (runAutoStep s) = autoTryIndex s.
Proof.
  unfold runAutoStep. destruct (autoTryRunning s); simpl; [|done].
  pose proof (stopAutoTry_sequencer s) as (? & ? & _).
  destruct (preloadedAssets s !! currentType s) as [l|]; [|done].
  destruct (Nat.leb (length l) (autoTryIndex s)); [done|].
  unfold assign_slot. by destruct (is_earrings (currentType s)).
Qed.

(** C6: with no category selected the toggle only raises the alert: the
    running flag, the collection, the step index and every other variable of
    the script are what they were; with a category selected and no run active
    it leaves the collection empty and the step index 0, and the run is
    active when the category's catalog is cached and not empty. *)
Theorem toggleTryAll_entry s :
  (currentType s = "" →
     toggleTryAll s = emit (Alert noCategoryMessage) s ∧
     autoTryRunning (toggleTryAll s) = autoTryRunning s ∧
     autoSnapshots (toggleTryAll s) = autoSnapshots s ∧
     autoTryIndex (toggleTryAll s) = autoTryIndex s) ∧
  (currentType s ≠ "" → autoTryRunning s = false →
     autoSnapshots (toggleTryAll s) = [] ∧
     autoTryIndex (toggleTryAll s) = 0%nat ∧
     (∀ l, preloadedAssets s !! currentType s = Some l → l ≠ [] →
           autoTryRunning (toggleTryAll s) = true)).
Proof.
  split.
  - intros Hty. unfold toggleTryAll. by rewrite Hty.
  - intros Hty Hrun. unfold toggleTryAll, startAutoTry.
    apply String.eqb_neq in Hty. rewrite Hty, Hrun.
    set (t := set_autoTryIndex _ _).
    destruct (runAutoStep_sequencer t) as [-> ->].
    split; [done|]. split; [done|]. intros l Hl Hne.
    unfold runAutoStep. cbn [autoTryRunning t set_autoTryIndex negb].
    change (preloadedAssets t) with (preloadedAssets s).
    change (currentType t) with (currentType s). rewrite Hl.
    change (autoTryIndex t) with 0%nat.
    destruct l as [|x l]; [done|]. simpl.
    unfold assign_slot. by destruct (is_earrings (currentType s)).
Qed.

Lemma toggleTryAll_entry_witness :
  (autoTryRunning (toggleTryAll initialState) = false ∧
   effects (toggleTryAll initialState) = [Alert noCategoryMessage]) ∧
  (length (autoSnapshots diamondDone) = 6%nat ∧
   autoSnapshots (toggleTryAll diamondDone) = [] ∧
   autoTryIndex (toggleTryAll diamondDone) = 0%nat ∧
   autoTryRunning (toggleTryAll diamondDone) = true).
Proof.
  split.
  - destruct (proj1 (toggleTryAll_entry initialState) eq_refl)
      as (Heq & Hrun & _).
    split; [exact Hrun | by rewrite Heq].
  - assert (Hty : currentType diamondDone ≠ "") by compute_done.
    destruct (proj2 (toggleTryAll_entry diamondDone) Hty eq_refl)
      as (Hsn & Hidx & Hrun).
    split; [by vm_compute|]. split; [exact Hsn|]. split; [exact Hidx|].
    apply (Hrun diamondCatalog); [by vm_compute | done].
Defined.

(** ** Gesture recognizer *)

(** The two one-sided tests of the script amount to a test of the absolute
    value. *)
Lemma ltb_either_side d :
  ((d <? - SWIPE_THRESHOLD) || (SWIPE_THRESHOLD <? d))%float
  = (SWIPE_THRESHOLD <? abs d)%float.
Proof.
  rewrite !ltb_spec, opp_spec, abs_spec.
  set (T := Prim2SF SWIPE_THRESHOLD). vm_compute in T. subst T.
  destruct (Prim2SF d) as [[|]|[|]| |[|] m e]; try reflexivity.
  unfold SFltb, SFopp, SFabs, SFcompare. cbn [negb].
  rewrite orb_false_r, (Z.compare_antisym e), (Pos.compare_antisym m).
  generalize (e ?= -57)%Z as ce. unfold Pos.compare.
  generalize (PosDef.Pos.compare_cont Eq m 5764607523034235) as cm.
  intros cm ce. destruct ce, cm; reflexivity.
Qed.

Lemma detectSwipe_exceeds x p :
  is_Some (detectSwipe x p) ↔ exceeds_threshold x p = true.
Proof.
  unfold exceeds_threshold. rewrite <- ltb_either_side. unfold detectSwipe.
  destruct (_ <? - SWIPE_THRESHOLD)%float; [by split; eauto|].
  destruct (SWIPE_THRESHOLD <? _)%float; [by split; eauto|].
  split; [by intros [? ?] | done].
Qed.

Lemma lastGestureTime_fireSwipe g now s :
  lastGestureTime (fireSwipe g now s) = now.
Proof. done. Qed.

(** What one frame does to the tracker. *)
Lemma onResults_cases now hand s :
  match (onResults now hand s).1 with
  | Some g =>
      autoTryRunning s = false ∧
      (∃ x p, hand = Some x ∧ previousHandX s = Some p ∧
              detectSwipe x p = Some g) ∧
      GESTURE_COOLDOWN ≤ now - lastGestureTime s ∧
      lastGestureTime (onResults now hand s).2 = now ∧
      previousHandX (onResults now hand s).2 = None
  | None =>
      lastGestureTime (onResults now hand s).2 = lastGestureTime s ∧
      (autoTryRunning s = false → swipe_conditions now hand s → False)
  end.
Proof.
  unfold onResults, updateHandIndicator, swipe_conditions.
  destruct hand as [x|]; cbn [bool_decide is_Some];
    [rewrite bool_decide_eq_true_2 by eauto
    |rewrite bool_decide_eq_false_2 by (by intros [? ?])].
  2: { simpl. split; [done|]. by intros _ (? & ? & ? & _). }
  destruct (autoTryRunning s) eqn:Hrun; [simpl; by split|].
  destruct (Z.ltb_spec (now - lastGestureTime s) GESTURE_COOLDOWN) as [Hc|Hc].
  { simpl. split; [done|]. intros _ (? & ? & _ & _ & _ & ?). lia. }
  destruct (previousHandX s) as [p|] eqn:Hp.
  2: { cbn [fst snd]. split.
       - by destruct (100 <? now - lastGestureTime s).
       - by intros _ (? & ? & _ & ? & _). }
  destruct (detectSwipe x p) as [g|] eqn:Hd; cbn [fst snd].
  - rewrite lastGestureTime_fireSwipe, Z.sub_diag. simpl.
    split; [done|]. split; [by exists x, p|]. done.
  - split; [by destruct (100 <? now - lastGestureTime s)|].
    intros _ (x' & p' & [= <-] & [= <-] & Hex & _).
    apply detectSwipe_exceeds in Hex as [g Hg]. congruence.
Qed.

(** The baseline after a frame: dropped when the hand is lost or a gesture
    fires, kept while a run is active or the cooldown lasts, and set to the
    position of the frame otherwise. *)
Lemma onResults_baseline now hand s :
  previousHandX (onResults now hand s).2 =
  match hand with
  | None => None
  | Some x =>
      if autoTryRunning s then previousHandX s
      else if now - lastGestureTime s <? GESTURE_COOLDOWN then previousHandX s
      else if (onResults now hand s).1 is Some _ then None else Some x
  end.
Proof.
  pose proof (onResults_cases now hand s) as H.
  destruct (onResults now hand s).1 as [g|] eqn:Hev.
  - destruct H as (Hrun & (x & p & -> & _) & Hc & _ & Hnone).
    rewrite Hrun, Hnone.
    by destruct (Z.ltb_spec (now - lastGestureTime s) GESTURE_COOLDOWN);
      [lia|].
  - clear H. unfold onResults, updateHandIndicator in *.
    destruct hand as [x|]; [|done].
    rewrite bool_decide_eq_true_2 in * by eauto.
    destruct (autoTryRunning s); [done|].
    destruct (Z.ltb_spec (now - lastGestureTime s) GESTURE_COOLDOWN) as [?|Hc];
      [done|].
    assert (H100 : (100 <? now - lastGestureTime s) = true)
      by (apply Z.ltb_lt; unfold GESTURE_COOLDOWN in Hc; lia).
    destruct (previousHandX s) as [p|]; cbn [fst snd] in *;
      [|by rewrite H100].
    destruct (detectSwipe x p); cbn [fst snd] in *; [done|by rewrite H100].
Qed.

(** One frame, on any state: it yields a gesture if and only if no run is
    active, [previousHandX] holds a position, the position of the frame
    differs from it by more than the threshold in absolute value, and
    [lastGestureTime] lies at least the cooldown back. *)
Lemma swipe_iff_frame now hand s :
  is_Some (onResults now hand s).1 ↔
  autoTryRunning s = false ∧ swipe_conditions now hand s.
Proof.
  pose proof (onResults_cases now hand s) as H.
  destruct (onResults now hand s).1 as [g|].
  - destruct H as (Hrun & (x & p & Hh & Hp & Hd) & Hc & _).
    split; [|by eauto]. intros _. split; [done|].
    exists x, p. repeat split; try done.
    apply detectSwipe_exceeds. by eauto.
  - destruct H as [_ H]. split; [by intros [? ?]|]. intros [? ?]. by exfalso; auto.
Qed.

(** C2 as worded fails while a run is active: the baseline is tracked, the
    hand has moved by 0.1 and the cooldown has elapsed, yet no gesture is
    emitted. *)
Lemma swipe_conditions_not_sufficient :
  ¬ (is_Some (onResults 2000 (Some 0.6%float) goldRunning).1 ↔
     swipe_conditions 2000 (Some 0.6%float) goldRunning).
Proof.
  intros [_ H].
  assert (Hc : swipe_conditions 2000 (Some 0.6%float) goldRunning).
  { exists 0.6%float, 0.5%float. repeat split; by vm_compute. }
  destruct (H Hc) as [g Hg]. by vm_compute in Hg.
Qed.

Lemma lastGestureTime_assign_slot type v s :
  lastGestureTime (assign_slot type v s) = lastGestureTime s.
Proof. unfold assign_slot. by destruct (is_earrings type). Qed.

Lemma lastGestureTime_stopAutoTry s :
  lastGestureTime (stopAutoTry s) = lastGestureTime s.
Proof. by destruct (stopAutoTry_shape s) as (tm & ef & ->). Qed.

Lemma lastGestureTime_runAutoStep s :
  lastGestureTime (runAutoStep s) = lastGestureTime s.
Proof.
  unfold runAutoStep. destruct (autoTryRunning s); simpl; [|done].
  destruct (preloadedAssets s !! currentType s) as [l|];
    [|apply lastGestureTime_stopAutoTry].
  destruct (Nat.leb (length l) (autoTryIndex s));
    [apply lastGestureTime_stopAutoTry|].
  unfold setTimeout_step. simpl. apply lastGestureTime_assign_slot.
Qed.

(** Only a gesture moves [lastGestureTime], and it moves it to the time of
    the gesture, at least the cooldown after the previous value. *)
Lemma step_lastGestureTime e s :
  match (step e s).1 with
  | Some (t, _) =>
      lastGestureTime (step e s).2 = t ∧
      GESTURE_COOLDOWN ≤ t - lastGestureTime s
  | None => lastGestureTime (step e s).2 = lastGestureTime s
  end.
Proof.
  destruct e as [now hand|type|k| | |id]; cbn [step fst snd].
  - pose proof (onResults_cases now hand s) as H.
    destruct (onResults now hand s).1 as [g|]; simpl.
    + by destruct H as (_ & _ & ? & ? & _).
    + by destruct H.
  - unfold selectJewelryType, preloadCategory. simpl.
    by destruct (preloadedAssets s !! type).
  - destruct (thumbButtons s !! k) as [[type i]|]; [|done].
    unfold thumbClick. destruct (preloadedAssets s !! type); [|done].
    apply lastGestureTime_assign_slot.
  - unfold toggleTryAll. destruct (String.eqb (currentType s) ""); [done|].
    destruct (autoTryRunning s); [apply lastGestureTime_stopAutoTry|].
    unfold startAutoTry. by rewrite lastGestureTime_runAutoStep.
  - done.
  - unfold timerFire. destruct (bool_decide (id ∈ timers s)); [|done].
    unfold autoStepCallback. by rewrite lastGestureTime_runAutoStep.
Qed.

(** Every gesture of a run comes at least the cooldown after the gesture time
    recorded at the start, and any two of them are at least the cooldown
    apart, whatever the order of the frame times. *)
Lemma run_gestures_spaced evs s :
  (∀ t g, (t, g) ∈ (run evs s).1 → GESTURE_COOLDOWN ≤ t - lastGestureTime s) ∧
  (∀ i j t1 g1 t2 g2, (i < j)%nat →
     (run evs s).1 !! i = Some (t1, g1) → (run evs s).1 !! j = Some (t2, g2) →
     GESTURE_COOLDOWN ≤ t2 - t1).
Proof.
  revert s. induction evs as [|e rest IH]; intros s; cbn [run fst snd].
  - split; [by intros t g ?%elem_of_nil | by intros i j ? ? ? ? _ ?].
  - pose proof (step_lastGestureTime e s) as He.
    destruct (IH (step e s).2) as [IHa IHp].
    destruct (step e s).1 as [[t0 g0]|].
    + destruct He as [Hlast Hcool]. rewrite Hlast in IHa.
      unfold GESTURE_COOLDOWN in *. split.
      * intros t g [[= -> ->]|Hin]%elem_of_cons; [done|].
        specialize (IHa t g Hin). lia.
      * intros i j t1 g1 t2 g2 Hij Hi Hj.
        destruct j as [|j]; [lia|]. cbn in Hj.
        destruct i as [|i]; cbn in Hi.
        -- injection Hi as <- <-.
           apply (IHa t2 g2). by eapply list_elem_of_lookup_2.
        -- apply (IHp i j t1 g1 t2 g2); [lia | done | done].
    + rewrite He in IHa. by split.
Qed.

(** [lastGestureTime] is the time of the last gesture emitted, and what it was
    at the start when there was none. *)
Lemma run_lastGestureTime evs s :
  lastGestureTime (run evs s).2 =
  match last (run evs s).1 with
  | Some (t, _) => t
  | None => lastGestureTime s
  end.
Proof.
  revert s. induction evs as [|e rest IH]; intros s; cbn [run fst snd]; [done|].
  pose proof (step_lastGestureTime e s) as He. rewrite IH.
  destruct (step e s).1 as [[t0 g0]|].
  - destruct He as [-> _]. rewrite last_cons.
    by destruct (last (run rest (step e s).2).1) as [[? ?]|].
  - by rewrite He.
Qed.

(** C3: over any sequence of events whose hand frames carry non-decreasing
    timestamps, two gestures emitted by the recognizer are at least 800 ms
    apart. *)
Theorem gestures_respect_cooldown evs s i j t1 g1 t2 g2 :
  Sorted Z.le (frameTimes evs) → (i < j)%nat →
  (run evs s).1 !! i = Some (t1, g1) →
  (run evs s).1 !! j = Some (t2, g2) →
  800 ≤ t2 - t1.
Proof.
  intros _ Hij Hi Hj.
  exact (proj2 (run_gestures_spaced evs s) i j t1 g1 t2 g2 Hij Hi Hj).
Qed.

Lemma gestures_respect_cooldown_witness :
  (run swipeFrames goldSelected).1 = [(1100, Next); (1950, Previous)] ∧
  800 ≤ 1950 - 1100.
Proof.
  split; [by vm_compute|].
  apply (gestures_respect_cooldown swipeFrames goldSelected 0 1
           1100 Next 1950 Previous).
  - repeat (constructor; try lia).
  - lia.
  - by vm_compute.
  - by vm_compute.
Defined.

(** ** Selecting a category *)

Lemma preloadCategory_cached type s l :
  preloadedAssets s !! type = Some l → preloadCategory type s = s.
Proof. intros H. unfold preloadCategory. by rewrite H. Qed.

Lemma preloadCategory_lookup type s :
  is_Some (preloadedAssets (preloadCategory type s) !! type).
Proof.
  unfold preloadCategory.
  destruct (preloadedAssets s !! type) as [l|] eqn:E; [by rewrite E|].
  simpl. rewrite lookup_insert_eq. by eexists.
Qed.

(** C4 as worded fails: choosing "gold_earrings" again after its second
    thumbnail was clicked leaves that image in the earring slot, at index 1 of
    the catalog. *)
Lemma select_keeps_selection :
  let s' := selectJewelryType "gold_earrings" goldPicked in
  read_slot "gold_earrings" s' ≠ JNull ∧
  read_slot "gold_earrings" s'
  = JImage {| img_ref := 1; img_src := "gold_earrings/2.png" |} ∧
  current_index s' goldCatalog = 1.
Proof. by vm_compute. Qed.

(** C4 as the script has it: [selectJewelryType] makes the category current
    and leaves the earring and the necklace selection as they were, so the
    slot is "none" exactly when it was before the call, as it is on a fresh
    page; the catalog of the category is cached after the call, a catalog
    already cached is not built again, and neither is it by a second call. *)
Theorem selectJewelryType_effect type s :
  let s' := selectJewelryType type s in
  currentType s' = type ∧
  earringImg s' = earringImg s ∧ necklaceImg s' = necklaceImg s ∧
  read_slot type (selectJewelryType type initialState) = JNull ∧
  is_Some (preloadedAssets s' !! type) ∧
  (∀ l, preloadedAssets s !! type = Some l →
        preloadedAssets s' = preloadedAssets s) ∧
  preloadedAssets (selectJewelryType type s') = preloadedAssets s' ∧
  nextRef (selectJewelryType type s') = nextRef s'.
Proof.
  intros s'.
  assert (Hsome : is_Some (preloadedAssets s' !! type)).
  { unfold s', selectJewelryType. cbn [preloadedAssets set_thumbButtons].
    apply preloadCategory_lookup. }
  assert (Hkeep : ∀ t l, preloadedAssets t !! type = Some l →
            preloadedAssets (selectJewelryType type t) = preloadedAssets t ∧
            nextRef (selectJewelryType type t) = nextRef t).
  { intros t l Hl. unfold selectJewelryType.
    cbn [preloadedAssets nextRef set_thumbButtons].
    by rewrite (preloadCategory_cached type (set_currentType type t) l). }
  repeat split.
  - unfold s', selectJewelryType, preloadCategory. simpl.
    by destruct (preloadedAssets s !! type).
  - unfold s', selectJewelryType, preloadCategory. simpl.
    by destruct (preloadedAssets s !! type).
  - unfold s', selectJewelryType, preloadCategory. simpl.
    by destruct (preloadedAssets s !! type).
  - unfold read_slot. by destruct (is_earrings type).
  - done.
  - intros l Hl. by destruct (Hkeep s l Hl).
  - destruct Hsome as [l Hl]. by destruct (Hkeep s' l Hl).
  - destruct Hsome as [l Hl]. by destruct (Hkeep s' l Hl).
Qed.

(** ** Invariants of the page *)

Lemma new_images_NoDup type base count :
  NoDup (img_ref <$> new_images type base count).
Proof.
  unfold new_images. rewrite <- list_fmap_compose.
  apply NoDup_fmap_2_strong; [|apply NoDup_seq].
  intros i j Hi%elem_of_seq Hj%elem_of_seq. simpl. lia.
Qed.

Lemma wf_initialState : wf initialState.
Proof.
  unfold wf, timers_ok. simpl.
  split; [lia|]. split; [by intros type l ?%lookup_empty_Some|]. by split.
Qed.

Lemma stopAutoTry_fields s :
  nextTimer (stopAutoTry s) = nextTimer s ∧
  preloadedAssets (stopAutoTry s) = preloadedAssets s ∧
  currentType (stopAutoTry s) = currentType s.
Proof. by destruct (stopAutoTry_shape s) as (tm & ef & ->). Qed.

Lemma stopAutoTry_timers s :
  timers s = [] ∨
    (∃ id, timers s = [id] ∧ autoTryTimeout s = Some id ∧ (0 < id)%nat) →
  timers (stopAutoTry s) = [].
Proof.
  intros H. unfold stopAutoTry, showGallery, clearTimeout. simpl.
  destruct H as [Htm|(id & Htm & Hto & Hid)].
  - destruct (autoTryTimeout s) as [id|]; [destruct (Nat.eqb id 0)|];
      simpl; destruct (Nat.ltb 0 (length (autoSnapshots s)));
      simpl; by rewrite Htm.
  - rewrite Hto. destruct (Nat.eqb_spec id 0) as [?|_]; [lia|]. simpl.
    destruct (Nat.ltb 0 (length (autoSnapshots s)));
      simpl; by rewrite Htm, remove_timer_single.
Qed.

Lemma runAutoStep_fields s :
  (nextTimer s ≤ nextTimer (runAutoStep s))%nat ∧
  preloadedAssets (runAutoStep s) = preloadedAssets s ∧
  currentType (runAutoStep s) = currentType s.
Proof.
  unfold runAutoStep. destruct (autoTryRunning s); simpl; [|done].
  destruct (stopAutoTry_fields s) as (Hn & Ha & Hc).
  destruct (preloadedAssets s !! currentType s) as [l|];
    [|by rewrite Hn, Ha, Hc].
  destruct (Nat.leb (length l) (autoTryIndex s)); [by rewrite Hn, Ha, Hc|].
  unfold setTimeout_step, assign_slot.
  destruct (is_earrings (currentType s)); simpl; repeat split; lia.
Qed.

(** Called with no timer pending, [runAutoStep] either schedules the one
    timer of the run or ends the run. *)
Lemma runAutoStep_timers_ok s :
  timers s = [] → (0 < nextTimer s)%nat → timers_ok (runAutoStep s).
Proof.
  intros Htm Hnt. unfold runAutoStep, timers_ok.
  destruct (autoTryRunning s) eqn:Hrun; simpl; [|by rewrite Hrun].
  pose proof (stopAutoTry_sequencer s) as (_ & _ & Hstop).
  pose proof (stopAutoTry_timers s (or_introl Htm)) as Hclr.
  destruct (preloadedAssets s !! currentType s) as [l|]; [|by rewrite Hstop].
  destruct (Nat.leb (length l) (autoTryIndex s)); [by rewrite Hstop|].
  unfold setTimeout_step, assign_slot.
  destruct (is_earrings (currentType s)); simpl; rewrite Hrun, Htm;
    by exists (nextTimer s).
Qed.

Lemma wf_assign_slot type v s : wf s → wf (assign_slot type v s).
Proof. unfold assign_slot. by destruct (is_earrings type). Qed.

Lemma wf_selectJewelryType type s : wf s → wf (selectJewelryType type s).
Proof.
  intros (Hnt & Hnd & Hcur & Htm).
  unfold wf, timers_ok, selectJewelryType, preloadCategory in *. simpl.
  destruct (preloadedAssets s !! type) as [l|] eqn:E; simpl.
  - rewrite E. repeat split; eauto.
  - repeat split; [done| |by rewrite lookup_insert_eq; eauto|done].
    intros type' l' [[<- <-]|[_ Hl]]%lookup_insert_Some; [|by eauto].
    apply new_images_NoDup.
Qed.

Lemma wf_toggleTryAll s : wf s → wf (toggleTryAll s).
Proof.
  intros (Hnt & Hnd & Hcur & Htm). unfold toggleTryAll.
  destruct (String.eqb (currentType s) ""); [done|].
  unfold timers_ok in Htm. destruct (autoTryRunning s) eqn:Hrun.
  - destruct (stopAutoTry_fields s) as (Hn & Ha & Hc).
    pose proof (stopAutoTry_sequencer s) as (_ & _ & Hstop).
    unfold wf, timers_ok. rewrite Hn, Ha, Hc, Hstop.
    repeat split; [done..|]. apply stopAutoTry_timers. by right.
  - unfold startAutoTry. set (t := set_autoTryIndex _ _).
    destruct (runAutoStep_fields t) as (Hn & Ha & Hc).
    unfold wf. rewrite Ha, Hc. repeat split; [simpl in Hn; lia|done..|].
    by apply runAutoStep_timers_ok.
Qed.

Lemma wf_timerFire id s : wf s → wf (timerFire id s).
Proof.
  intros (Hnt & Hnd & Hcur & Htm). unfold timerFire.
  destruct (bool_decide (id ∈ timers s)) eqn:Hin; [|done].
  apply bool_decide_eq_true in Hin. unfold autoStepCallback.
  set (t := set_autoTryIndex _ _).
  assert (Ht : timers t = []).
  { unfold timers_ok in Htm. simpl. destruct (autoTryRunning s).
    - destruct Htm as (id' & Htm & _). rewrite Htm in Hin |- *.
      apply list_elem_of_singleton in Hin as ->. apply remove_timer_single.
    - by rewrite Htm in Hin |- *. }
  destruct (runAutoStep_fields t) as (Hn & Ha & Hc).
  unfold wf. rewrite Ha, Hc. repeat split; [simpl in Hn; lia|done..|].
  by apply runAutoStep_timers_ok.
Qed.

Lemma wf_navigateJewelry dir s : wf s → wf (navigateJewelry dir s).
Proof.
  intros H. unfold navigateJewelry.
  destruct (String.eqb (currentType s) ""); [done|].
  destruct (preloadedAssets s !! currentType s); [|done].
  by apply wf_assign_slot.
Qed.

Lemma wf_onResults now hand s : wf s → wf (onResults now hand s).2.
Proof.
  intros H. unfold onResults, updateHandIndicator.
  assert (H0 : wf (if bool_decide (is_Some hand) then s
                   else set_previousHandX None s))
    by (by destruct (bool_decide (is_Some hand))).
  set (s1 := if bool_decide (is_Some hand) then s else _) in *.
  destruct hand as [x|]; [|done].
  destruct (autoTryRunning s1); [done|].
  destruct (now - lastGestureTime s1 <? GESTURE_COOLDOWN); [done|].
  assert (Hr : ∀ t, wf t →
            wf (if 100 <? now - lastGestureTime t
                then set_previousHandX (Some x) t else t))
    by (intros t ?; by destruct (100 <? now - lastGestureTime t)).
  destruct (previousHandX s1) as [p|]; [|by apply Hr].
  destruct (detectSwipe x p) as [g|]; [|by apply Hr].
  apply Hr. unfold fireSwipe.
  by pose proof (wf_navigateJewelry (swipe_dir g) s1 H0).
Qed.

(** Every event keeps the invariant, so it holds after any sequence of
    events on a fresh page. *)
Lemma wf_step e s : wf s → wf (step e s).2.
Proof.
  intros H. destruct e as [now hand|type|k| | |id]; cbn [step snd].
  - by apply wf_onResults.
  - by apply wf_selectJewelryType.
  - destruct (thumbButtons s !! k) as [[type i]|]; [|done].
    unfold thumbClick. destruct (preloadedAssets s !! type); [|done].
    by apply wf_assign_slot.
  - by apply wf_toggleTryAll.
  - done.
  - by apply wf_timerFire.
Qed.

Lemma wf_run evs s : wf s → wf (run evs s).2.
Proof.
  revert s. induction evs as [|e rest IH]; intros s H; [done|].
  cbn [run snd]. apply IH. by apply wf_step.
Qed.

Lemma wf_reachable evs : wf (run evs initialState).2.
Proof. apply wf_run, wf_initialState. Qed.

(** A cached catalog is never replaced. *)
Lemma step_keeps_catalog e s type l :
  preloadedAssets s !! type = Some l →
  preloadedAssets (step e s).2 !! type = Some l.
Proof.
  intros Hl. destruct e as [now hand|type'|k| | |id]; cbn [step snd].
  - unfold onResults, updateHandIndicator.
    destruct hand as [x|]; [|done]. simpl.
    destruct (autoTryRunning s); [done|].
    destruct (now - lastGestureTime s <? GESTURE_COOLDOWN); [done|].
    assert (Hr : ∀ t, preloadedAssets t = preloadedAssets s →
              preloadedAssets (if 100 <? now - lastGestureTime t
                               then set_previousHandX (Some x) t else t) !! type
              = Some l).
    { intros t Ht. by destruct (100 <? now - lastGestureTime t); simpl;
        rewrite Ht. }
    destruct (previousHandX s) as [p|]; [|by apply Hr].
    destruct (detectSwipe x p) as [g|]; [|by apply Hr].
    apply Hr. unfold fireSwipe, navigateJewelry. simpl.
    destruct (String.eqb (currentType s) ""); [done|].
    destruct (preloadedAssets s !! currentType s); [|done].
    apply preloadedAssets_assign_slot.
  - unfold selectJewelryType, preloadCategory. simpl.
    destruct (preloadedAssets s !! type') as [l'|] eqn:E; simpl; [done|].
    rewrite lookup_insert_ne; [done|]. intros ->. congruence.
  - destruct (thumbButtons s !! k) as [[type' i]|]; [|done].
    unfold thumbClick. destruct (preloadedAssets s !! type'); [|done].
    by rewrite preloadedAssets_assign_slot.
  - unfold toggleTryAll. destruct (String.eqb (currentType s) ""); [done|].
    destruct (autoTryRunning s).
    + destruct (stopAutoTry_fields s) as (_ & -> & _). done.
    + unfold startAutoTry. set (t := set_autoTryIndex _ _).
      destruct (runAutoStep_fields t) as (_ & -> & _). done.
  - done.
  - unfold timerFire. destruct (bool_decide (id ∈ timers s)); [|done].
    unfold autoStepCallback. set (t := set_autoTryIndex _ _).
    destruct (runAutoStep_fields t) as (_ & -> & _). done.
Qed.

(** What the theorems above assume of a state holds on every reachable page:
    catalogs consist of distinct objects, an idle page has no timer pending,
    and timer ids are positive. *)
Lemma wf_assumptions s l :
  wf s → browsing s l →
  NoDup (img_ref <$> l) ∧ (0 < nextTimer s)%nat ∧
  (autoTryRunning s = false → timers s = []).
Proof.
  intros (Hnt & Hnd & _ & Htm) [_ Hl]. split; [by eapply Hnd|].
  split; [done|]. intros Hrun. unfold timers_ok in Htm. by rewrite Hrun in Htm.
Qed.

(** * Further properties of the script *)

(** ** What each function can change *)

Lemma assign_slot_shape type v s :
  ∃ e n,
    assign_slot type v s =
    mkState e n (currentType s) (lastGestureTime s) (previousHandX s)
      (autoTryRunning s) (autoSnapshots s) (autoTryIndex s) (autoTryTimeout s)
      (preloadedAssets s) (thumbButtons s) (timers s) (nextTimer s)
      (nextRef s) (effects s).
Proof.
  unfold assign_slot. destruct (is_earrings type); do 2 eexists; reflexivity.
Qed.

Lemma navigateJewelry_shape dir s :
  ∃ e n,
    navigateJewelry dir s =
    mkState e n (currentType s) (lastGestureTime s) (previousHandX s)
      (autoTryRunning s) (autoSnapshots s) (autoTryIndex s) (autoTryTimeout s)
      (preloadedAssets s) (thumbButtons s) (timers s) (nextTimer s)
      (nextRef s) (effects s).
Proof.
  unfold navigateJewelry.
  destruct (String.eqb (currentType s) "");
    [destruct s; do 2 eexists; reflexivity|].
  destruct (preloadedAssets s !! currentType s);
    [apply assign_slot_shape | destruct s; do 2 eexists; reflexivity].
Qed.

Lemma runAutoStep_shape s :
  ∃ e n r tout tm nt ef,
    runAutoStep s =
    mkState e n (currentType s) (lastGestureTime s) (previousHandX s) r
      (autoSnapshots s) (autoTryIndex s) tout (preloadedAssets s)
      (thumbButtons s) tm nt (nextRef s) ef.
Proof.
  unfold runAutoStep.
  assert (Hstop : ∃ e n r tout tm nt ef,
            stopAutoTry s =
            mkState e n (currentType s) (lastGestureTime s) (previousHandX s) r
              (autoSnapshots s) (autoTryIndex s) tout (preloadedAssets s)
              (thumbButtons s) tm nt (nextRef s) ef).
  { destruct (stopAutoTry_shape s) as (tm & ef & ->).
    do 7 eexists; reflexivity. }
  destruct (autoTryRunning s) eqn:Hrun; simpl;
    [|destruct s; do 7 eexists; reflexivity].
  destruct (preloadedAssets s !! currentType s) as [l|]; [|done].
  destruct (Nat.leb (length l) (autoTryIndex s)); [done|].
  destruct (assign_slot_shape (currentType s)
              (array_get l (Some (Z.of_nat (autoTryIndex s)))) s)
    as (e & n & ->).
  unfold setTimeout_step. simpl. do 7 eexists; reflexivity.
Qed.

(** A frame that emits a gesture does what the firing branch does. *)
Lemma onResults_fired now hand s g :
  (onResults now hand s).1 = Some g →
  (onResults now hand s).2 = fireSwipe g now s.
Proof.
  unfold onResults, updateHandIndicator.
  destruct hand as [x|]; [|done]. rewrite bool_decide_eq_true_2 by eauto.
  destruct (autoTryRunning s); [done|].
  destruct (now - lastGestureTime s <? GESTURE_COOLDOWN); [done|].
  destruct (previousHandX s) as [p|]; [|done].
  destruct (detectSwipe x p) as [g'|]; [|done]. cbn [fst snd].
  intros [= ->]. by rewrite lastGestureTime_fireSwipe, Z.sub_diag.
Qed.

(** A frame that emits nothing changes the baseline at most. *)
Lemma onResults_quiet now hand s :
  (onResults now hand s).1 = None →
  (onResults now hand s).2
  = set_previousHandX (previousHandX (onResults now hand s).2) s.
Proof.
  unfold onResults, updateHandIndicator.
  destruct hand as [x|]; [|done]. rewrite bool_decide_eq_true_2 by eauto.
  destruct (autoTryRunning s); [by destruct s|].
  destruct (now - lastGestureTime s <? GESTURE_COOLDOWN); [by destruct s|].
  assert (Hr : (if 100 <? now - lastGestureTime s
                then set_previousHandX (Some x) s else s)
               = set_previousHandX
                   (previousHandX (if 100 <? now - lastGestureTime s
                                   then set_previousHandX (Some x) s else s)) s)
    by (destruct (100 <? now - lastGestureTime s); by destruct s).
  destruct (previousHandX s) as [p|] eqn:Hp; [|done].
  by destruct (detectSwipe x p) as [g'|].
Qed.

(** X1: a hand frame leaves the sequencer (running flag, collection, step
    index, timers), the cache, the category and the thumbnails alone; when it
    emits a gesture the new state is that of the firing branch, and when it
    emits none nothing but the tracked baseline can differ. *)
Theorem hand_frame_footprint now hand s :
  let r := onResults now hand s in
  (autoTryRunning r.2 = autoTryRunning s ∧
   autoSnapshots r.2 = autoSnapshots s ∧
   autoTryIndex r.2 = autoTryIndex s ∧
   autoTryTimeout r.2 = autoTryTimeout s ∧
   timers r.2 = timers s ∧ nextTimer r.2 = nextTimer s ∧
   preloadedAssets r.2 = preloadedAssets s ∧ nextRef r.2 = nextRef s ∧
   currentType r.2 = currentType s ∧ thumbButtons r.2 = thumbButtons s) ∧
  match r.1 with
  | Some g => r.2 = fireSwipe g now s
  | None => r.2 = set_previousHandX (previousHandX r.2) s
  end.
Proof.
  intros r. unfold r. destruct (onResults now hand s).1 as [g|] eqn:Hev.
  - rewrite (onResults_fired now hand s g Hev). split; [|done].
    unfold fireSwipe.
    destruct (navigateJewelry_shape (swipe_dir g) s) as (e & n & ->).
    by repeat split.
  - rewrite (onResults_quiet now hand s Hev). by repeat split.
Qed.

Lemma selectJewelryType_shape type s :
  ∃ cache buttons fresh,
    selectJewelryType type s =
    mkState (earringImg s) (necklaceImg s) type (lastGestureTime s)
      (previousHandX s) (autoTryRunning s) (autoSnapshots s) (autoTryIndex s)
      (autoTryTimeout s) cache buttons (timers s) (nextTimer s) fresh
      (effects s).
Proof.
  unfold selectJewelryType, preloadCategory. simpl.
  destruct (preloadedAssets s !! type); do 3 eexists; reflexivity.
Qed.

(** An event other than a hand frame and a choice of category leaves the
    tracker, the category, the cache and the thumbnails as they are. *)
Lemma step_shape e s :
  not_frame e → (∀ type, e ≠ SelectType type) →
  ∃ e' n r snaps idx tout tm nt ef,
    (step e s).2 =
    mkState e' n (currentType s) (lastGestureTime s) (previousHandX s) r
      snaps idx tout (preloadedAssets s) (thumbButtons s) tm nt (nextRef s) ef.
Proof.
  intros Hnf Hns.
  assert (Hid : ∃ e' n r snaps idx tout tm nt ef,
            s = mkState e' n (currentType s) (lastGestureTime s)
                  (previousHandX s) r snaps idx tout (preloadedAssets s)
                  (thumbButtons s) tm nt (nextRef s) ef)
    by (destruct s; do 9 eexists; reflexivity).
  assert (Hrun : ∀ t,
            currentType t = currentType s →
            lastGestureTime t = lastGestureTime s →
            previousHandX t = previousHandX s →
            preloadedAssets t = preloadedAssets s →
            thumbButtons t = thumbButtons s → nextRef t = nextRef s →
            ∃ e' n r snaps idx tout tm nt ef,
              runAutoStep t =
              mkState e' n (currentType s) (lastGestureTime s)
                (previousHandX s) r snaps idx tout (preloadedAssets s)
                (thumbButtons s) tm nt (nextRef s) ef).
  { intros t <- <- <- <- <- <-.
    destruct (runAutoStep_shape t) as (e' & n & r & tout & tm & nt & ef & ->).
    do 9 eexists; reflexivity. }
  destruct e as [now hand|type|k| | |id]; cbn [step snd].
  - done.
  - by destruct (Hns type).
  - destruct (thumbButtons s !! k) as [[type i]|]; [|done].
    unfold thumbClick. destruct (preloadedAssets s !! type); [|done].
    destruct (assign_slot_shape type
                (array_get l (Some (Z.of_nat i - 1))) s) as (e' & n & ->).
    do 9 eexists; reflexivity.
  - unfold toggleTryAll.
    destruct (String.eqb (currentType s) "");
      [destruct s; do 9 eexists; reflexivity|].
    destruct (autoTryRunning s).
    + destruct (stopAutoTry_shape s) as (tm & ef & ->).
      do 9 eexists; reflexivity.
    + by apply Hrun.
  - destruct s; do 9 eexists; reflexivity.
  - unfold timerFire. destruct (bool_decide (id ∈ timers s)); [|done].
    by apply Hrun.
Qed.

Lemma step_previousHandX e s :
  not_frame e → previousHandX (step e s).2 = previousHandX s.
Proof.
  intros Hnf.
  assert (Hsome : (∃ type, e = SelectType type) ∨ (∀ type, e ≠ SelectType type))
    by (destruct e; eauto).
  destruct Hsome as [[type ->]|Hns].
  - cbn [step snd].
    by destruct (selectJewelryType_shape type s) as (? & ? & ? & ->).
  - by destruct (step_shape e s Hnf Hns)
      as (? & ? & ? & ? & ? & ? & ? & ? & ? & ->).
Qed.

Lemma run_previousHandX evs s :
  Forall not_frame evs → previousHandX (run evs s).2 = previousHandX s.
Proof.
  intros H. revert s. induction H as [|e rest He _ IH]; intros s; [done|].
  cbn [run snd]. by rewrite IH, step_previousHandX.
Qed.

(** ** The recognizer over a stream of events *)

Lemma run_snoc evs e s : (run (evs ++ [e]) s).2 = (step e (run evs s).2).2.
Proof.
  revert s. induction evs as [|e' rest IH]; intros s; [done|].
  cbn [app run snd]. apply IH.
Qed.

Lemma reached_snoc pre e : reached (pre ++ [e]) = (step e (reached pre)).2.
Proof. apply run_snoc. Qed.

(** The tracker's [lastGestureTime] is the time of the last gesture of the
    stream. *)
Lemma lastGestureTime_reached pre :
  lastGestureTime (reached pre) = lastEventTime pre.
Proof. unfold reached, lastEventTime. by rewrite run_lastGestureTime. Qed.

Lemma snoc_split {A} (before after pre : list A) f e :
  before ++ f :: after = pre ++ [e] →
  (after = [] ∧ before = pre ∧ f = e) ∨
  (∃ after', after = after' ++ [e] ∧ pre = before ++ f :: after').
Proof.
  destruct after as [|a after' _] using rev_ind; intros H.
  - left. by apply (app_inj_tail before pre f e) in H as [-> ->].
  - right. exists after'.
    change (before ++ f :: after' ++ [a])
      with (before ++ (f :: after') ++ [a]) in H.
    rewrite app_assoc in H. by apply app_inj_tail in H as [<- ->].
Qed.

(** A tracked baseline after one more event: the event is the frame that
    sets it, or it was tracked before and the event leaves it alone. *)
Lemma baseline_tracked_snoc pre e p :
  baseline_tracked (pre ++ [e]) p ↔
  (∃ t, e = HandFrame t (Some p) ∧ sets_baseline pre t p) ∨
  (baseline_tracked pre p ∧ keeps_baseline pre e).
Proof.
  split.
  - intros (before & t & after & Hpre & Hset & Hkeep). symmetry in Hpre.
    apply snoc_split in Hpre as [(-> & -> & <-)|(after' & -> & ->)].
    + left. by exists t.
    + right. split.
      * exists before, t, after'. split; [done|]. split; [done|].
        intros mid e' rest ->. apply (Hkeep mid e' (rest ++ [e])).
        by rewrite <- app_assoc.
      * by apply (Hkeep after' e []).
  - intros [(t & -> & Hset)|[(before & t & after & -> & Hset & Hkeep) Hlast]].
    + exists pre, t, []. split; [done|]. split; [done|].
      intros mid e' rest H. by destruct mid.
    + exists before, t, (after ++ [e]). split; [by rewrite <- app_assoc|].
      split; [done|]. intros mid e' rest H. symmetry in H.
      apply snoc_split in H as [(-> & -> & ->)|(rest' & -> & ->)].
      * done.
      * by apply (Hkeep mid e' rest').
Qed.

(** The same for the variable of the tracker. *)
Lemma previousHandX_snoc pre e p :
  previousHandX (reached (pre ++ [e])) = Some p ↔
  (∃ t, e = HandFrame t (Some p) ∧ sets_baseline pre t p) ∨
  (previousHandX (reached pre) = Some p ∧ keeps_baseline pre e).
Proof.
  rewrite reached_snoc.
  unfold sets_baseline, keeps_baseline, examined, fires.
  rewrite <- lastGestureTime_reached. set (s := reached pre).
  destruct e as [now hand|type|k| | |id].
  2-6: rewrite step_previousHandX by done; split;
    [intros H; right; split; [done|];
     split; [done|]; split; [by intros [? ?]|done]
    |intros [(t & ? & _)|[H _]]; [done|exact H]].
  cbn [step fst snd]. rewrite fmap_is_Some, onResults_baseline.
  pose proof (onResults_cases now hand s) as Hc.
  destruct hand as [x|].
  2: { split; [done|]. intros [(t & ? & _)|[_ (Hlost & _)]]; [done|].
       by destruct (Hlost now). }
  destruct (autoTryRunning s) eqn:Hrun.
  { destruct (onResults now (Some x) s).1 as [g|]; [by destruct Hc|].
    split.
    - intros H. right. split; [done|]. split; [done|].
      split; [by intros [? ?]|]. by intros t x' _ [? _].
    - intros [(t & _ & [? _] & _)|[H _]]; done. }
  destruct (Z.ltb_spec (now - lastGestureTime s) GESTURE_COOLDOWN) as [Hcd|Hcd].
  { destruct (onResults now (Some x) s).1 as [g|];
      [destruct Hc as (_ & _ & ? & _); lia|].
    split.
    - intros H. right. split; [done|]. split; [done|].
      split; [by intros [? ?]|]. intros t x' [= <- _] [_ ?]. lia.
    - intros [(t & [= <- _] & [_ ?] & _)|[H _]]; [lia|done]. }
  destruct (onResults now (Some x) s).1 as [g|] eqn:Hg.
  - split; [done|].
    intros [(t & [= <- <-] & _ & Hnf)|[_ (_ & Hnf & _)]];
      destruct Hnf; cbn [step fst]; rewrite ?fmap_is_Some, ?Hg; by eexists.
  - split.
    + intros [= <-]. left. exists now. split; [done|]. split; [done|].
      cbn [step fst]. rewrite fmap_is_Some, Hg. by intros [? ?].
    + intros [(t & [= <- <-] & _)|[_ (_ & _ & Hne)]]; [done|].
      by destruct (Hne now x eq_refl).
Qed.

(** The variable [previousHandX] holds the baseline the stream tracks. *)
Lemma previousHandX_reached pre p :
  previousHandX (reached pre) = Some p ↔ baseline_tracked pre p.
Proof.
  revert p. induction pre as [|e pre IH] using rev_ind; intros p.
  - split; [done|]. intros (before & t & after & H & _). by destruct before.
  - by rewrite previousHandX_snoc, baseline_tracked_snoc, IH.
Qed.

(** C2 as the script has it: for every stream of events of a fresh page, hand
    frames among them, and every frame that follows it, the frame yields a
    gesture if and only if no auto-capture run is active, a baseline position
    is tracked (a frame set it, and since then the hand was not lost and no
    gesture was emitted), the position of the frame differs from the baseline
    by more than 0.04 in absolute value, and at least 800 ms have passed
    since the last gesture emitted, counted from 0 when there was none. *)
Theorem swipe_iff pre now hand :
  is_Some (onResults now hand (reached pre)).1 ↔
  autoTryRunning (reached pre) = false ∧
  ∃ x p, hand = Some x ∧ baseline_tracked pre p ∧
         exceeds_threshold x p = true ∧
         GESTURE_COOLDOWN ≤ now - lastEventTime pre.
Proof.
  rewrite swipe_iff_frame. unfold swipe_conditions.
  rewrite lastGestureTime_reached.
  split; intros [Hrun (x & p & Hh & Hp & He & Hc)]; (split; [done|]);
    exists x, p; repeat split; try done; by apply previousHandX_reached.
Qed.

(** The stream of [goldRunning]: the three conditions hold after it for a
    hand at 0.6 at time 2000, the baseline being the hand seen at 0.5, and
    the frame yields nothing, a run being active. *)
Lemma swipe_stream_during_run :
  let pre := [SelectType "gold_earrings"; HandFrame 1000 (Some 0.5%float);
              ToggleTryAll] in
  baseline_tracked pre 0.5%float ∧
  exceeds_threshold 0.6%float 0.5%float = true ∧
  GESTURE_COOLDOWN ≤ 2000 - lastEventTime pre ∧
  autoTryRunning (reached pre) = true ∧
  (onResults 2000 (Some 0.6%float) (reached pre)).1 = None.
Proof.
  split; [|by vm_compute].
  exists [SelectType "gold_earrings"], 1000, [ToggleTryAll].
  split; [done|]. split.
  - split; [split; by vm_compute|]. intros [g Hg]. by vm_compute in Hg.
  - intros mid e rest H. destruct mid as [|e' mid]; [|by destruct mid].
    injection H as <- <-. split; [done|].
    split; [|done]. intros [g Hg]. by vm_compute in Hg.
Qed.

(** X2: a frame that comes after a frame without a hand, or after a frame
    that emitted a gesture, emits nothing, whatever its position and time and
    whatever clicks, toggles and timers happened in between. *)
Theorem no_gesture_after_loss_or_gesture t1 h1 s mid t2 h2 :
  h1 = None ∨ is_Some (onResults t1 h1 s).1 →
  Forall not_frame mid →
  (onResults t2 h2 (run mid (onResults t1 h1 s).2).2).1 = None.
Proof.
  intros Hfirst Hmid.
  assert (Hnone : previousHandX (onResults t1 h1 s).2 = None).
  { destruct Hfirst as [->|[g Hg]]; [done|].
    pose proof (onResults_cases t1 h1 s) as H. rewrite Hg in H.
    by destruct H as (_ & _ & _ & _ & ?). }
  set (s1 := (run mid (onResults t1 h1 s).2).2).
  assert (Hp : previousHandX s1 = None)
    by (unfold s1; by rewrite run_previousHandX).
  pose proof (onResults_cases t2 h2 s1) as H.
  destruct (onResults t2 h2 s1).1 as [g|]; [|done].
  destruct H as (_ & (x & p & _ & Hsome & _) & _). congruence.
Qed.

Lemma no_gesture_after_loss_or_gesture_witness :
  (onResults 1100 (Some 0.4%float)
     (onResults 1050 (Some 0.5%float) goldSelected).2).1 = Some Next ∧
  (onResults 5000 (Some 0.9%float)
     (run [ThumbClick 0; ToggleTryAll; ToggleTryAll]
        (onResults 1100 (Some 0.4%float)
           (onResults 1050 (Some 0.5%float) goldSelected).2).2).2).1 = None.
Proof.
  split; [by vm_compute|].
  apply (no_gesture_after_loss_or_gesture 1100 (Some 0.4%float)).
  - right. exists Next. by vm_compute.
  - repeat first [apply Forall_nil_2 | apply Forall_cons_2; [exact I|]].
Defined.

(** X3: when a frame emits a gesture on a page whose category has a cached
    catalog of distinct images and whose selection is at index [i], the
    selection moves to index [(i + 1) mod N] for [Next] and to
    [(i - 1) mod N] for [Previous]. *)
Theorem gesture_moves_selection l now hand s (i : nat) g :
  NoDup (img_ref <$> l) → browsing s l → current_index s l = Z.of_nat i →
  (onResults now hand s).1 = Some g →
  current_index (onResults now hand s).2 l
  = (Z.of_nat i + swipe_dir g) mod Z.of_nat (length l).
Proof.
  intros Hnd Hb Hi Hg. rewrite (onResults_fired now hand s g Hg).
  assert (Hd : swipe_dir g = 1 ∨ swipe_dir g = -1) by (destruct g; eauto).
  destruct (navigateJewelry_index l Hnd s i (swipe_dir g) Hb Hi Hd)
    as (_ & _ & _ & Hidx).
  pose proof (current_index_bound l s i Hi) as Hr.
  rewrite Z2Nat.id in Hidx by (apply Z.mod_pos_bound; lia).
  rewrite <- Hidx. unfold fireSwipe, current_index, selection, read_slot.
  by destruct (is_earrings _).
Qed.

Lemma gesture_moves_selection_witness :
  current_index
    (onResults 1100 (Some 0.6%float)
       (onResults 1050 (Some 0.5%float) goldPicked).2).2 goldCatalog
  = (Z.of_nat 1 + swipe_dir Previous) mod Z.of_nat (length goldCatalog).
Proof.
  apply (gesture_moves_selection goldCatalog 1100 (Some 0.6%float)).
  - compute_done.
  - split; [compute_done | by vm_compute].
  - by vm_compute.
  - by vm_compute.
Defined.

(** ** More on the catalog navigator *)

(** X4: with a category selected and a non-empty catalog cached,
    [navigateJewelry(1)] and [navigateJewelry(-1)] always leave an item of
    that catalog selected, whatever the slot held before. *)
Theorem navigate_stays_in_catalog s l d :
  browsing s l → (1 ≤ length l)%nat → d = 1 ∨ d = -1 →
  ∃ k, (k < length l)%nat ∧ selects (navigateJewelry d s) l k.
Proof.
  intros Hb HN Hd. rewrite (navigateJewelry_browsing s l d Hb).
  pose proof (indexOf_range l (selection s)) as Hr.
  fold (current_index s l) in Hr.
  set (a := current_index s l + d + Z.of_nat (length l)).
  assert (Hrem : 0 ≤ Z.rem a (Z.of_nat (length l)) < Z.of_nat (length l)).
  { destruct (Z.le_gt_cases 0 a) as [Hpos|Hneg].
    - rewrite Z.rem_mod_nonneg by lia. apply Z.mod_pos_bound. lia.
    - assert (HN1 : Z.of_nat (length l) = 1) by (unfold a in Hneg; lia).
      rewrite HN1, Z.rem_1_r. lia. }
  unfold js_rem. destruct (Z.eqb_spec (Z.of_nat (length l)) 0); [lia|].
  set (r := Z.rem a (Z.of_nat (length l))) in *.
  exists (Z.to_nat r). split; [lia|].
  destruct (array_get_item l (Z.to_nat r) ltac:(lia)) as (x & Hx & Hget).
  rewrite Z2Nat.id in Hget by lia.
  exists x. split; [done|]. by rewrite selection_assign_slot.
Qed.

Lemma navigate_stays_in_catalog_witness :
  ∃ k, (k < length diamondEarrings)%nat ∧
       selects (navigateJewelry (-1) diamondAfterGold) diamondEarrings k.
Proof.
  apply navigate_stays_in_catalog.
  - split; [compute_done | by vm_compute].
  - vm_compute. lia.
  - by right.
Defined.

(** X5: when the catalog of the selected category is empty, as it is for a
    category without a count, [navigateJewelry] puts [undefined] in the slot
    of the category. *)
Theorem navigate_empty_catalog s d :
  browsing s [] →
  navigateJewelry d s = assign_slot (currentType s) JUndefined s ∧
  selection (navigateJewelry d s) = JUndefined.
Proof.
  intros Hb. rewrite (navigateJewelry_browsing s [] d Hb).
  split; [done|]. by rewrite selection_assign_slot.
Qed.

Lemma navigate_empty_catalog_witness :
  navigateJewelry 1 silverSelected
  = assign_slot (currentType silverSelected) JUndefined silverSelected ∧
  selection (navigateJewelry 1 silverSelected) = JUndefined.
Proof.
  apply navigate_empty_catalog. split; [compute_done | by vm_compute].
Defined.

Lemma assign_slot_back type v w s :
  read_slot type s = v → assign_slot type v (assign_slot type w s) = s.
Proof.
  unfold read_slot, assign_slot. intros <-.
  destruct (is_earrings type); by destruct s.
Qed.

(** X6: on a page whose selection is an item of the cached catalog of
    distinct images, a step in one direction followed by a step in the other
    direction restores every variable of the script, in either order. *)
Theorem navigate_round_trip l s (i : nat) x d :
  NoDup (img_ref <$> l) → browsing s l →
  l !! i = Some x → selection s = JImage x → d = 1 ∨ d = -1 →
  navigateJewelry (- d) (navigateJewelry d s) = s.
Proof.
  intros Hnd Hb Hx Hsel Hd.
  assert (Hi : current_index s l = Z.of_nat i).
  { unfold current_index. rewrite Hsel, indexOf_find.
    by rewrite (find_index_NoDup l i x). }
  pose proof (current_index_bound l s i Hi) as Hr.
  destruct (navigateJewelry_index l Hnd s i d Hb Hi Hd) as (Hb1 & _ & _ & Hi1).
  assert (Hd' : - d = 1 ∨ - d = -1) by lia.
  destruct (navigateJewelry_index l Hnd _ _ (- d) Hb1 Hi1 Hd')
    as (_ & _ & Hsel2 & _).
  assert (Hback : Z.to_nat
            ((Z.of_nat (Z.to_nat ((Z.of_nat i + d) mod Z.of_nat (length l)))
              + - d) mod Z.of_nat (length l)) = i).
  { rewrite Z2Nat.id by (apply Z.mod_pos_bound; lia).
    rewrite Zplus_mod_idemp_l.
    replace (Z.of_nat i + d + - d) with (Z.of_nat i) by lia.
    rewrite Z.mod_small by lia. lia. }
  rewrite Hback in Hsel2.
  destruct (array_get_item l i ltac:(lia)) as (x' & Hx' & Hget).
  rewrite Hget in Hsel2. assert (x' = x) as -> by congruence.
  rewrite (navigateJewelry_browsing _ l (- d) Hb1) in Hsel2 |- *.
  rewrite selection_assign_slot in Hsel2. rewrite Hsel2.
  rewrite (navigateJewelry_browsing s l d Hb).
  rewrite currentType_assign_slot. by apply assign_slot_back.
Qed.

Lemma navigate_round_trip_witness :
  navigateJewelry (- -1) (navigateJewelry (-1) goldPicked) = goldPicked.
Proof.
  apply (navigate_round_trip goldCatalog goldPicked 1
           {| img_ref := 1; img_src := "gold_earrings/2.png" |}).
  - compute_done.
  - split; [compute_done | by vm_compute].
  - by vm_compute.
  - by vm_compute.
  - by right.
Defined.

(** ** The cache and the thumbnails *)

Lemma new_images_length type base count :
  length (new_images type base count) = count.
Proof. unfold new_images. by rewrite length_map, length_seq. Qed.

Lemma new_images_lookup type base count (i : nat) x :
  new_images type base count !! i = Some x →
  (i < count)%nat ∧ img_ref x = (base + i)%nat ∧
  img_src x = asset_src type (S i).
Proof.
  unfold new_images. rewrite list_lookup_fmap.
  destruct (seq 1 count !! i) as [j|] eqn:E; [|done].
  apply lookup_seq in E as [-> Hi]. intros [= <-]. simpl.
  repeat split; [done | lia].
Qed.

Lemma new_images_ref type base count x :
  x ∈ new_images type base count →
  (base ≤ img_ref x < base + count)%nat.
Proof.
  intros (i & Hi)%list_elem_of_lookup_1.
  apply new_images_lookup in Hi as (? & -> & _). lia.
Qed.

Lemma page_built_initialState : page_built initialState.
Proof.
  unfold page_built, catalogs_built, catalogs_disjoint, buttons_current.
  simpl. repeat split.
  - by intros type l ?%lookup_empty_Some.
  - by intros type1 type2 l1 l2 x y _ ?%lookup_empty_Some.
Qed.

Lemma page_built_selectJewelryType type s :
  page_built s → page_built (selectJewelryType type s).
Proof.
  intros (Hb & Hd & _).
  unfold page_built, catalogs_built, catalogs_disjoint, buttons_current,
    selectJewelryType, preloadCategory in *. simpl.
  destruct (preloadedAssets s !! type) as [l0|] eqn:E; simpl;
    [by repeat split; eauto|].
  assert (Hold : ∀ type' l' x, preloadedAssets s !! type' = Some l' →
            x ∈ l' → (img_ref x < nextRef s)%nat).
  { intros type' l' x Hl Hx. destruct (Hb type' l' Hl) as (base & -> & Hle).
    apply new_images_ref in Hx. lia. }
  split; [|split; [|done]].
  - intros type' l'. rewrite lookup_insert_Some.
    intros [[<- <-]|[_ Hl]]; [by exists (nextRef s)|].
    destruct (Hb type' l' Hl) as (base & -> & Hle). exists base.
    split; [done | lia].
  - intros type1 type2 l1 l2 x y Hne.
    rewrite !lookup_insert_Some.
    intros [[<- <-]|[_ H1]] [[<- <-]|[_ H2]] Hx Hy; [done| | |by eauto].
    + apply new_images_ref in Hx. specialize (Hold _ _ _ H2 Hy). lia.
    + apply new_images_ref in Hy. specialize (Hold _ _ _ H1 Hx). lia.
Qed.

(** Only the choice of a category changes the category, the cache, the
    thumbnails and the allocation of objects. *)
Lemma step_catalog_fields e s :
  (∀ type, e ≠ SelectType type) →
  currentType (step e s).2 = currentType s ∧
  preloadedAssets (step e s).2 = preloadedAssets s ∧
  thumbButtons (step e s).2 = thumbButtons s ∧
  nextRef (step e s).2 = nextRef s.
Proof.
  intros Hns. destruct e as [now hand|type|k| | |id].
  - cbn [step snd]. destruct (onResults now hand s).1 as [g|] eqn:Hev.
    + rewrite (onResults_fired now hand s g Hev). unfold fireSwipe.
      by destruct (navigateJewelry_shape (swipe_dir g) s) as (? & ? & ->).
    + by rewrite (onResults_quiet now hand s Hev).
  - by destruct (Hns type).
  - by destruct (step_shape (ThumbClick k) s I Hns)
      as (? & ? & ? & ? & ? & ? & ? & ? & ? & ->).
  - by destruct (step_shape ToggleTryAll s I Hns)
      as (? & ? & ? & ? & ? & ? & ? & ? & ? & ->).
  - by destruct (step_shape TakeSnapshot s I Hns)
      as (? & ? & ? & ? & ? & ? & ? & ? & ? & ->).
  - by destruct (step_shape (TimerExpires id) s I Hns)
      as (? & ? & ? & ? & ? & ? & ? & ? & ? & ->).
Qed.

Lemma page_built_step e s : page_built s → page_built (step e s).2.
Proof.
  intros H.
  assert (Hsome : (∃ type, e = SelectType type) ∨ (∀ type, e ≠ SelectType type))
    by (destruct e; eauto).
  destruct Hsome as [[type ->]|Hns]; [by apply page_built_selectJewelryType|].
  destruct (step_catalog_fields e s Hns) as (Hc & Ha & Ht & Hn).
  unfold page_built, catalogs_built, catalogs_disjoint, buttons_current in *.
  by rewrite Hc, Ha, Ht, Hn.
Qed.

Lemma page_built_run evs s : page_built s → page_built (run evs s).2.
Proof.
  revert s. induction evs as [|e rest IH]; intros s H; [done|].
  cbn [run snd]. apply IH. by apply page_built_step.
Qed.

Lemma page_built_reachable evs : page_built (run evs initialState).2.
Proof. apply page_built_run, page_built_initialState. Qed.

(** X7: on every page reached from the fresh page, a click on the [k]-th
    thumbnail shown selects item [k] of the catalog of the current category;
    the index a thumbnail holds is never out of range. *)
Theorem thumbnail_click_in_range evs k :
  let s := (run evs initialState).2 in
  (k < length (thumbButtons s))%nat →
  ∃ l, browsing s l ∧ (k < length l)%nat ∧
       selects (step (ThumbClick k) s).2 l k.
Proof.
  intros s Hk.
  destruct (page_built_reachable evs) as (Hb & _ & Ht). fold s in Hb, Ht.
  destruct (wf_reachable evs) as (_ & _ & Hcur & _). fold s in Hcur.
  unfold buttons_current in Ht. rewrite Ht, length_map, length_seq in Hk.
  assert (Hty : currentType s ≠ "").
  { intros E. rewrite E in Hk. vm_compute in Hk. lia. }
  destruct (Hcur Hty) as [l Hl].
  destruct (Hb _ l Hl) as (base & El & _).
  assert (Hlen : length l = image_count (currentType s))
    by (rewrite El; apply new_images_length).
  exists l. split; [done|]. split; [lia|].
  assert (Hbtn : thumbButtons s !! k = Some (currentType s, S k)).
  { rewrite Ht, list_lookup_fmap, lookup_seq_lt by done. done. }
  cbn [step snd]. rewrite Hbtn. unfold thumbClick. rewrite Hl.
  replace (Z.of_nat (S k) - 1) with (Z.of_nat k) by lia.
  destruct (array_get_item l k ltac:(lia)) as (x & Hx & Hget).
  exists x. split; [done|]. rewrite Hget. apply selection_assign_slot.
Qed.

Lemma thumbnail_click_in_range_witness :
  let s := (run [SelectType "diamond_necklaces"] initialState).2 in
  ∃ l, browsing s l ∧ (5 < length l)%nat ∧
       selects (step (ThumbClick 5) s).2 l 5.
Proof.
  apply (thumbnail_click_in_range [SelectType "diamond_necklaces"] 5).
  vm_compute. lia.
Defined.

(** X8: on every page reached from the fresh page, the catalog cached for a
    category has as many images as [IMAGE_COUNTS] gives for it (none when it
    gives nothing), and its item [i] has the source [type/(i+1).png]. *)
Theorem cached_catalog_contents evs type l :
  preloadedAssets (run evs initialState).2 !! type = Some l →
  length l = image_count type ∧
  ∀ (i : nat) x, l !! i = Some x → img_src x = asset_src type (S i).
Proof.
  intros Hl. destruct (page_built_reachable evs) as (Hb & _ & _).
  destruct (Hb type l Hl) as (base & -> & _).
  split; [apply new_images_length|].
  intros i x Hx. by apply new_images_lookup in Hx as (_ & _ & ?).
Qed.

Lemma cached_catalog_contents_witness :
  length diamondCatalog = 6%nat ∧
  ∀ (i : nat) x, diamondCatalog !! i = Some x →
                 img_src x = asset_src "diamond_necklaces" (S i).
Proof.
  replace 6%nat with (image_count "diamond_necklaces") by (by vm_compute).
  apply (cached_catalog_contents [SelectType "diamond_necklaces"]).
  by vm_compute.
Defined.

(** X9: on every page reached from the fresh page, choosing a category for
    which [IMAGE_COUNTS] has no entry, and whose name is not one every
    object inherits from [Object.prototype], caches an empty catalog for it
    and leaves the page without thumbnails. *)
Theorem unknown_category_is_empty evs type :
  IMAGE_COUNTS !! type = None → type ∉ objectPrototypeMembers →
  let s' := selectJewelryType type (run evs initialState).2 in
  preloadedAssets s' !! type = Some [] ∧ thumbButtons s' = [].
Proof.
  intros Hno _ s'.
  assert (Hcount : image_count type = 0%nat)
    by (unfold image_count; by rewrite Hno).
  pose proof (page_built_reachable (evs ++ [SelectType type])) as (Hb & _ & Ht).
  assert (Hrun : (run (evs ++ [SelectType type]) initialState).2 = s')
    by apply run_snoc.
  rewrite Hrun in Hb, Ht. split.
  - destruct (preloadCategory_lookup type
                (set_currentType type (run evs initialState).2)) as [l Hl].
    assert (Hl' : preloadedAssets s' !! type = Some l) by done.
    destruct (Hb type l Hl') as (base & -> & _).
    by rewrite Hl', Hcount.
  - unfold buttons_current in Ht. rewrite Ht.
    assert (Hc : currentType s' = type)
      by (unfold s'; by destruct (selectJewelryType_shape type
              (run evs initialState).2) as (? & ? & ? & ->)).
    by rewrite Hc, Hcount.
Qed.

Lemma unknown_category_is_empty_witness :
  preloadedAssets silverSelected !! "silver_rings" = Some [] ∧
  thumbButtons silverSelected = [].
Proof.
  apply (unknown_category_is_empty [] "silver_rings");
    [by vm_compute | compute_done].
Defined.

(** X10: a catalog once cached is never replaced or dropped: it is still the
    catalog of its category after any sequence of events. *)
Theorem cached_catalog_is_kept evs s type l :
  preloadedAssets s !! type = Some l →
  preloadedAssets (run evs s).2 !! type = Some l.
Proof.
  revert s. induction evs as [|e rest IH]; intros s Hl; [done|].
  cbn [run snd]. apply IH. by apply step_keeps_catalog.
Qed.

Lemma cached_catalog_is_kept_witness :
  preloadedAssets
    (run [SelectType "diamond_earrings"; ToggleTryAll; TimerExpires 1;
          SelectType "gold_earrings"; HandFrame 5000 None] goldPicked).2
    !! "gold_earrings" = Some goldCatalog.
Proof.
  apply cached_catalog_is_kept. by vm_compute.
Defined.

(** X11: on every page reached from the fresh page, when the slot of the
    current category holds an image of the catalog of another category,
    [navigateJewelry(1)] selects item 0 of the current catalog: the catalogs
    of different categories share no image object. *)
Theorem navigate_after_category_switch evs other l1 l2 x :
  let s := (run evs initialState).2 in
  browsing s l2 → (1 ≤ length l2)%nat →
  other ≠ currentType s → preloadedAssets s !! other = Some l1 →
  x ∈ l1 → selection s = JImage x →
  current_index s l2 = -1 ∧ selects (navigateJewelry 1 s) l2 0.
Proof.
  intros s Hb HN Hne Hl1 Hx Hsel.
  destruct (page_built_reachable evs) as (_ & Hd & _). fold s in Hd.
  assert (Hidx : current_index s l2 = -1).
  { unfold current_index. rewrite Hsel, indexOf_find, find_index_None; [done|].
    intros y Hy. unfold strict_eq. apply Nat.eqb_neq.
    destruct Hb as [_ Hl2].
    exact (Hd (currentType s) other l2 l1 y x (not_eq_sym Hne) Hl2 Hl1 Hy Hx). }
  split; [done|].
  rewrite (navigateJewelry_browsing s l2 1 Hb), Hidx.
  replace (-1 + 1 + Z.of_nat (length l2)) with (Z.of_nat (length l2)) by lia.
  unfold js_rem. destruct (Z.eqb_spec (Z.of_nat (length l2)) 0); [lia|].
  rewrite Z.rem_same by lia.
  destruct (array_get_item l2 0 ltac:(lia)) as (y & Hy & Hget).
  exists y. split; [done|]. rewrite selection_assign_slot. exact Hget.
Qed.

Lemma navigate_after_category_switch_witness :
  let s := (run [SelectType "gold_earrings"; ThumbClick 1;
                 SelectType "diamond_earrings"] initialState).2 in
  current_index s diamondEarrings = -1 ∧
  selects (navigateJewelry 1 s) diamondEarrings 0.
Proof.
  apply (navigate_after_category_switch
           [SelectType "gold_earrings"; ThumbClick 1;
            SelectType "diamond_earrings"]
           "gold_earrings" goldCatalog diamondEarrings
           {| img_ref := 1; img_src := "gold_earrings/2.png" |}).
  - split; [compute_done | by vm_compute].
  - vm_compute. lia.
  - compute_done.
  - by vm_compute.
  - by apply (list_elem_of_lookup_2 goldCatalog 1).
  - by vm_compute.
Defined.

(** ** More on the auto-capture sequencer *)

(** X12: on every page reached from the fresh page, exactly one step timer
    is pending while a run is active, the one [autoTryTimeout] names, and
    none is pending otherwise, so that no timer can fire into an idle page. *)
Theorem step_timer_discipline evs :
  let s := (run evs initialState).2 in
  if autoTryRunning s
  then ∃ id, timers s = [id] ∧ autoTryTimeout s = Some id
  else timers s = [] ∧ ∀ id, timerFire id s = s.
Proof.
  intros s. destruct (wf_reachable evs) as (_ & _ & _ & Htm). fold s in Htm.
  unfold timers_ok in Htm. destruct (autoTryRunning s).
  - destruct Htm as (id & ? & ? & _). by exists id.
  - split; [done|]. intros id. unfold timerFire. by rewrite Htm.
Qed.

(** X13: no event removes or changes a snapshot of the collection except the
    toggle that starts a run, which empties it; every other event leaves the
    collection as it is or appends one snapshot to it. *)
Theorem snapshots_only_grow e s :
  (∃ added, (length added ≤ 1)%nat ∧
            autoSnapshots (step e s).2 = autoSnapshots s ++ added) ∨
  (e = ToggleTryAll ∧ autoTryRunning s = false ∧
   autoSnapshots (step e s).2 = []).
Proof.
  assert (Hsame : ∀ t, autoSnapshots t = autoSnapshots s →
            ∃ added, (length added ≤ 1)%nat ∧
                     autoSnapshots t = autoSnapshots s ++ added).
  { intros t ->. exists []. split; [simpl; lia | by rewrite app_nil_r]. }
  assert (Hone : ∀ t p, autoSnapshots t = autoSnapshots s ++ [p] →
            ∃ added, (length added ≤ 1)%nat ∧
                     autoSnapshots t = autoSnapshots s ++ added).
  { intros t p ->. exists [p]. split; [simpl; lia | done]. }
  destruct e as [now hand|type|k| | |id]; cbn [step snd].
  - left. apply Hsame. destruct (onResults now hand s).1 as [g|] eqn:Hev.
    + rewrite (onResults_fired now hand s g Hev). unfold fireSwipe.
      by destruct (navigateJewelry_shape (swipe_dir g) s) as (? & ? & ->).
    + by rewrite (onResults_quiet now hand s Hev).
  - left. apply Hsame.
    by destruct (selectJewelryType_shape type s) as (? & ? & ? & ->).
  - left. apply Hsame. destruct (thumbButtons s !! k) as [[type i]|]; [|done].
    unfold thumbClick. destruct (preloadedAssets s !! type); [|done].
    by destruct (assign_slot_shape type
                   (array_get l (Some (Z.of_nat i - 1))) s) as (? & ? & ->).
  - unfold toggleTryAll.
    destruct (String.eqb (currentType s) ""); [left; by apply Hsame|].
    destruct (autoTryRunning s) eqn:Hrun.
    + left. apply Hsame. by destruct (stopAutoTry_shape s) as (? & ? & ->).
    + right. split; [done|]. split; [done|]. unfold startAutoTry.
      by destruct (runAutoStep_sequencer
                     (set_autoTryIndex 0%nat
                        (set_autoSnapshots [] (set_autoTryRunning true s))))
        as [-> _].
  - left. by eapply Hone.
  - left. unfold timerFire. destruct (bool_decide (id ∈ timers s));
      [|by apply Hsame].
    unfold autoStepCallback.
    match goal with
    | |- context [runAutoStep ?t] =>
        destruct (runAutoStep_sequencer t) as [Hs _]; eapply Hone;
        rewrite Hs; reflexivity
    end.
Qed.

(** X14: a run over a non-empty catalog that is left to itself shows the
    gallery exactly once, at its end and with the whole collection, stops at
    step index [N] and leaves the last item of the catalog selected. *)
Theorem completed_run_shows_gallery s l :
  browsing s l → autoTryRunning s = false → timers s = [] →
  (0 < length l)%nat →
  let s' := Nat.iter (length l) fireNext (toggleTryAll s) in
  effects s' = effects s ++ [ShowGallery (autoSnapshots s')] ∧
  autoTryIndex s' = length l ∧
  selects s' l (length l - 1).
Proof.
  intros Hb Hrun Htm HN s'. unfold s'.
  rewrite (run_complete s l Hb Hrun Htm HN). unfold doneState.
  cbn [effects autoSnapshots autoTryIndex]. split; [done|]. split; [done|].
  destruct (array_get_item l (length l - 1) ltac:(lia)) as (x & Hx & Hget).
  exists x. split; [done|]. rewrite Hget.
  unfold selection, read_slot, assign_slot. simpl.
  by destruct (is_earrings (currentType s)).
Qed.

Lemma completed_run_shows_gallery_witness :
  effects diamondDone = [ShowGallery (autoSnapshots diamondDone)] ∧
  autoTryIndex diamondDone = 6%nat ∧
  selects diamondDone diamondCatalog 5.
Proof.
  apply (completed_run_shows_gallery diamondSelected diamondCatalog).
  - split; [compute_done | by vm_compute].
  - reflexivity.
  - reflexivity.
  - vm_compute. lia.
Defined.

(** X15: on an idle page whose selected category has no catalog cached, or an
    empty one, the toggle starts no run: the collection is emptied and the
    step index reset, and nothing else happens; no timer is set and the
    gallery is not shown. *)
Theorem run_without_catalog s :
  currentType s ≠ "" → autoTryRunning s = false → timers s = [] →
  preloadedAssets s !! currentType s = None ∨
    preloadedAssets s !! currentType s = Some [] →
  toggleTryAll s = set_autoTryIndex 0%nat (set_autoSnapshots [] s).
Proof.
  intros Hty Hrun Htm Hcat. unfold toggleTryAll, startAutoTry, runAutoStep.
  apply String.eqb_neq in Hty. rewrite Hty, Hrun. simpl.
  assert (Hstop : stopAutoTry
            (set_autoTryIndex 0%nat
               (set_autoSnapshots [] (set_autoTryRunning true s)))
          = set_autoTryIndex 0%nat (set_autoSnapshots [] s)).
  { rewrite stopAutoTry_no_timer by done. simpl.
    unfold set_autoTryIndex, set_autoSnapshots, set_autoTryRunning. simpl.
    by rewrite Hrun. }
  by destruct Hcat as [->| ->].
Qed.

Lemma run_without_catalog_witness :
  toggleTryAll silverSelected
  = set_autoTryIndex 0%nat (set_autoSnapshots [] silverSelected).
Proof.
  apply run_without_catalog.
  - compute_done.
  - reflexivity.
  - reflexivity.
  - right. by vm_compute.
Defined.

(** ** Gallery and lightbox *)

(** X16: when the strip of the lightbox shows the collection of a state [s],
    as it does once [openLightbox] ran on [s] and whatever was clicked in the
    lightbox since, a click on thumbnail [j] of the strip, [j] within that
    collection, sets the main image and the strip as [openLightbox(j)] does
    on [s], and changes nothing else on the page.  The strip is not built
    anew: the collection of [s] counts, not the present one. *)
Theorem strip_click_reopens j d s :
  strip_src <$> lightboxThumbs d = autoSnapshots s →
  (j < length (autoSnapshots s))%nat →
  let d' := stripThumbClick j d in
  lightboxImage d' = lightboxImage (openLightbox j s d) ∧
  lightboxThumbs d' = lightboxThumbs (openLightbox j s d) ∧
  lightboxShown d' = lightboxShown d ∧
  galleryShown d' = galleryShown d ∧ galleryGrid d' = galleryGrid d.
Proof.
  intros Hstrip Hj d'. destruct (lookup_lt_is_Some_2 _ _ Hj) as [p Hp].
  assert (Hlook : ∀ i, autoSnapshots s !! i
                       = strip_src <$> lightboxThumbs d !! i)
    by (intros i; by rewrite <- Hstrip, list_lookup_fmap).
  destruct (lightboxThumbs d !! j) as [thumb|] eqn:Hthumb;
    [|by rewrite Hlook, Hthumb in Hp].
  assert (Hsrc : strip_src thumb = p)
    by (rewrite Hlook, Hthumb in Hp; by injection Hp).
  unfold d', stripThumbClick, openLightbox. rewrite Hthumb.
  cbn [lightboxImage lightboxThumbs lightboxShown galleryShown galleryGrid].
  rewrite Hp, Hsrc. split; [done|]. split; [|done].
  apply list_eq. intros i. rewrite !list_lookup_imap, Hlook.
  by destruct (lightboxThumbs d !! i).
Qed.

Lemma strip_click_reopens_witness :
  let d := closeLightbox (openLightbox 4 diamondDone initialDom) in
  let d' := stripThumbClick 1 d in
  lightboxImage d' = lightboxImage (openLightbox 1 diamondDone d) ∧
  lightboxThumbs d' = lightboxThumbs (openLightbox 1 diamondDone d) ∧
  lightboxShown d' = lightboxShown d ∧
  galleryShown d' = galleryShown d ∧ galleryGrid d' = galleryGrid d.
Proof.
  apply (strip_click_reopens 1
           (closeLightbox (openLightbox 4 diamondDone initialDom)) diamondDone).
  - by vm_compute.
  - vm_compute. lia.
Defined.

Lemma lightbox_coherent_openLightbox k s d :
  lightbox_coherent (openLightbox k s d).
Proof.
  intros j t. unfold openLightbox. cbn [lightboxThumbs lightboxImage].
  rewrite list_lookup_imap.
  destruct (autoSnapshots s !! j) as [p|] eqn:Hp; [|done].
  intros [= <-]. cbn [strip_active strip_src].
  intros ->%bool_decide_eq_true. rewrite Hp. split; [done|].
  intros j' t'. rewrite list_lookup_imap.
  destruct (autoSnapshots s !! j'); [|done].
  intros [= <-]. cbn [strip_active]. by intros ->%bool_decide_eq_true.
Qed.

Lemma lightbox_coherent_stripThumbClick j d :
  lightbox_coherent d → lightbox_coherent (stripThumbClick j d).
Proof.
  intros H. unfold stripThumbClick.
  destruct (lightboxThumbs d !! j) as [thumb|] eqn:Hj; [|done].
  intros i t. cbn [lightboxThumbs lightboxImage]. rewrite list_lookup_imap.
  destruct (lightboxThumbs d !! i) as [t0|] eqn:Hi; [|done].
  intros [= <-]. cbn [strip_active strip_src].
  intros ->%bool_decide_eq_true. assert (t0 = thumb) as -> by congruence.
  split; [done|]. intros i' t'. rewrite list_lookup_imap.
  destruct (lightboxThumbs d !! i'); [|done].
  intros [= <-]. cbn [strip_active]. by intros ->%bool_decide_eq_true.
Qed.

Lemma renderEffect_lightbox d e :
  lightboxImage (renderEffect d e) = lightboxImage d ∧
  lightboxThumbs (renderEffect d e) = lightboxThumbs d.
Proof. by destruct e. Qed.

Lemma grid_indexed_showGalleryDom snaps d :
  grid_indexed (showGalleryDom snaps d).
Proof.
  intros k p index. unfold showGalleryDom. cbn [galleryGrid].
  rewrite list_lookup_imap. destruct (snaps !! k); [|done].
  by intros [= _ <-].
Qed.

(** The gallery after the actions [efs] were carried out. *)
Lemma foldl_renderEffect_keeps efs d :
  (lightbox_coherent d → lightbox_coherent (foldl renderEffect d efs)) ∧
  (grid_indexed d → grid_indexed (foldl renderEffect d efs)).
Proof.
  revert d. induction efs as [|e rest IH]; intros d; [done|]. simpl.
  destruct (IH (renderEffect d e)) as [IHl IHg]. split; intros H.
  - apply IHl. destruct (renderEffect_lightbox d e) as [Hi Ht].
    unfold lightbox_coherent. by rewrite Hi, Ht.
  - apply IHg. destruct e; [done..|]. apply grid_indexed_showGalleryDom.
Qed.

Lemma pageStep_keeps ev p :
  lightbox_coherent p.2 ∧ grid_indexed p.2 →
  lightbox_coherent (pageStep ev p).2 ∧ grid_indexed (pageStep ev p).2.
Proof.
  intros [Hl Hg]. destruct ev as [e|k|j| |]; cbn [pageStep snd].
  - split; by apply foldl_renderEffect_keeps.
  - unfold galleryThumbClick.
    destruct (galleryGrid p.2 !! k) as [[q index]|]; [|done].
    split; [apply lightbox_coherent_openLightbox | done].
  - split; [by apply lightbox_coherent_stripThumbClick|].
    unfold stripThumbClick. by destruct (lightboxThumbs p.2 !! j).
  - done.
  - done.
Qed.

Lemma pageRun_keeps evs p :
  lightbox_coherent p.2 ∧ grid_indexed p.2 →
  lightbox_coherent (pageRun evs p).2 ∧ grid_indexed (pageRun evs p).2.
Proof.
  revert p. induction evs as [|ev rest IH]; intros p H; [done|].
  apply (IH (pageStep ev p)). by apply pageStep_keeps.
Qed.

(** X17: on every page reached from the fresh page by events of the script
    and clicks in the gallery, at most one thumbnail of the strip is
    highlighted, a highlighted thumbnail shows the picture of the main image,
    and the thumbnails of the grid hold their own positions as indices. *)
Theorem gallery_invariant evs :
  lightbox_coherent (pageRun evs initialPage).2 ∧
  grid_indexed (pageRun evs initialPage).2.
Proof. apply pageRun_keeps. by split. Qed.

(** X18: on every such page, a click on the [k]-th thumbnail of the grid
    opens the lightbox on entry [k] of the collection as it is at the time of
    the click: the main image is that entry, or [undefined] when the
    collection has no entry [k] any more, and the strip shows the present
    collection. *)
Theorem grid_click_opens_current evs k :
  let p := pageRun evs initialPage in
  (k < length (galleryGrid p.2))%nat →
  let d' := galleryThumbClick k p.1 p.2 in
  d' = openLightbox k p.1 p.2 ∧
  lightboxImage d' = match autoSnapshots p.1 !! k with
                     | Some q => SrcData q
                     | None => SrcUndefined
                     end ∧
  strip_src <$> lightboxThumbs d' = autoSnapshots p.1.
Proof.
  intros p Hk d'.
  destruct (pageRun_keeps evs initialPage ltac:(by split)) as [_ Hg].
  fold p in Hg. destruct (lookup_lt_is_Some_2 _ _ Hk) as [[q index] Hq].
  assert (index = k) as -> by (by eapply Hg).
  assert (Hd : d' = openLightbox k p.1 p.2)
    by (unfold d', galleryThumbClick; by rewrite Hq).
  rewrite Hd. split; [done|]. split; [done|].
  unfold openLightbox. cbn [lightboxThumbs].
  apply list_eq. intros i. rewrite list_lookup_fmap, list_lookup_imap.
  by destruct (autoSnapshots p.1 !! i).
Qed.

Lemma grid_click_opens_current_witness :
  let p := pageRun [Script (SelectType "gold_earrings"); Script TakeSnapshot;
                    Script ToggleTryAll] initialPage in
  let d' := galleryThumbClick 0 p.1 p.2 in
  d' = openLightbox 0 p.1 p.2 ∧
  lightboxImage d' = match autoSnapshots p.1 !! 0%nat with
                     | Some q => SrcData q
                     | None => SrcUndefined
                     end ∧
  strip_src <$> lightboxThumbs d' = autoSnapshots p.1.
Proof.
  apply (grid_click_opens_current
           [Script (SelectType "gold_earrings"); Script TakeSnapshot;
            Script ToggleTryAll] 0).
  vm_compute. lia.
Defined.

(** What an event of the script that logs nothing, or one showing of the
    gallery, does to the page. *)
Lemma pageStep_script_quiet e s d :
  effects (step e s).2 = effects s →
  pageStep (Script e) (s, d) = ((step e s).2, d).
Proof.
  intros H. cbn [pageStep fst snd]. by rewrite H, drop_all.
Qed.

Lemma pageStep_script_gallery e s d shown :
  effects (step e s).2 = effects s ++ [ShowGallery shown] →
  pageStep (Script e) (s, d) = ((step e s).2, showGalleryDom shown d).
Proof.
  intros H. cbn [pageStep fst snd]. by rewrite H, drop_app_length.
Qed.

(** X19: [takeSnapshot] captures the present selection as the last entry of
    the collection and shows the gallery with the whole collection; a click
    on the last thumbnail of the grid then opens the lightbox on that
    capture. *)
Theorem snapshot_then_open s d :
  let shot := {| snap_earring := earringImg s;
                 snap_necklace := necklaceImg s |} in
  let p := pageRun [Script TakeSnapshot;
                    GalleryThumbClick (length (autoSnapshots s))] (s, d) in
  autoSnapshots p.1 = autoSnapshots s ++ [shot] ∧
  galleryShown p.2 = true ∧
  galleryGrid p.2 = imap (λ index src, (src, index)) (autoSnapshots s ++ [shot]) ∧
  lightboxShown p.2 = true ∧
  lightboxImage p.2 = SrcData shot.
Proof.
  intros shot p. unfold p, pageRun. cbn [foldl].
  rewrite (pageStep_script_gallery TakeSnapshot s d
             (autoSnapshots s ++ [shot])) by done.
  cbn [pageStep fst snd step]. unfold galleryThumbClick, showGalleryDom.
  cbn [galleryGrid]. rewrite list_lookup_imap.
  rewrite (lookup_app_r (autoSnapshots s)) by lia.
  rewrite Nat.sub_diag. cbn [lookup list_lookup fmap option_fmap option_map].
  unfold openLightbox, takeSnapshot, showGallery, captureToGallery.
  cbn [autoSnapshots emit set_autoSnapshots lightboxImage lightboxShown
       galleryShown galleryGrid].
  rewrite (lookup_app_r (autoSnapshots s)) by lia.
  by rewrite Nat.sub_diag.
Qed.

(** The events of a run left to itself: the toggle, then the expiry of the
    timers it sets one after the other. *)
Lemma pageRun_run_prefix s d l m :
  browsing s l → autoTryRunning s = false → timers s = [] →
  (m < length l)%nat →
  pageRun (Script ToggleTryAll ::
           ((λ i, Script (TimerExpires (i + nextTimer s))) <$> seq 0 m)) (s, d)
  = (runState s l m, d).
Proof.
  intros Hb Hrun Htm. induction m as [|m IH]; intros Hm.
  - unfold pageRun. cbn [fmap list_fmap seq foldl].
    rewrite pageStep_script_quiet;
      cbn [step snd]; by rewrite (toggleTryAll_start s l).
  - rewrite seq_S, fmap_app, app_comm_cons. unfold pageRun in *.
    rewrite foldl_app, IH by lia. cbn [fmap list_fmap foldl].
    assert (Hfire : (step (TimerExpires (0 + m + nextTimer s))
                       (runState s l m)).2 = runState s l (S m))
      by (rewrite <- (fireNext_runState s l m Hb Hm); reflexivity).
    rewrite pageStep_script_quiet; by rewrite Hfire.
Qed.

(** X20: after a run over the cached catalog [l] that was left to itself, the
    gallery is shown with one thumbnail per item, and a click on thumbnail
    [i] of the grid opens the lightbox on the capture taken while item [i]
    was selected, with thumbnail [i] of the strip, and no other, highlighted. *)
Theorem run_then_open s d l (i : nat) x :
  browsing s l → autoTryRunning s = false → timers s = [] →
  l !! i = Some x →
  let evs := Script ToggleTryAll ::
             ((λ m, Script (TimerExpires (m + nextTimer s)))
                <$> seq 0 (length l)) ++ [GalleryThumbClick i] in
  let p := pageRun evs (s, d) in
  galleryShown p.2 = true ∧ length (galleryGrid p.2) = length l ∧
  lightboxShown p.2 = true ∧
  (∃ q, lightboxImage p.2 = SrcData q ∧
        snap_slot (currentType s) q = JImage x) ∧
  ∀ j t, lightboxThumbs p.2 !! j = Some t →
         strip_active t = bool_decide (j = i).
Proof.
  intros Hb Hrun Htm Hx evs p.
  assert (Hi : (i < length l)%nat) by (by eapply lookup_lt_Some).
  destruct (length l) as [|n] eqn:Hlen; [lia|].
  assert (Hrunp : pageRun
            (Script ToggleTryAll ::
             ((λ m, Script (TimerExpires (m + nextTimer s))) <$> seq 0 (S n)))
            (s, d)
          = (doneState s l, showGalleryDom (snapshot_with s <$> l) d)).
  { rewrite seq_S, fmap_app, app_comm_cons. unfold pageRun.
    rewrite foldl_app. fold (pageRun
      (Script ToggleTryAll ::
       ((λ m, Script (TimerExpires (m + nextTimer s))) <$> seq 0 n)) (s, d)).
    rewrite (pageRun_run_prefix s d l n Hb Hrun Htm) by lia.
    cbn [fmap list_fmap foldl].
    assert (Hfire : (step (TimerExpires (0 + n + nextTimer s))
                       (runState s l n)).2 = doneState s l)
      by (rewrite <- (fireNext_runState_last s l n Hb) by lia; reflexivity).
    rewrite (pageStep_script_gallery _ _ _ (snapshot_with s <$> l));
      by rewrite Hfire. }
  assert (Hpv : p = (doneState s l,
                     galleryThumbClick i (doneState s l)
                       (showGalleryDom (snapshot_with s <$> l) d))).
  { unfold p, evs, pageRun. rewrite app_comm_cons, foldl_app.
    fold (pageRun
      (Script ToggleTryAll ::
       ((λ m, Script (TimerExpires (m + nextTimer s))) <$> seq 0 (S n)))
      (s, d)).
    by rewrite Hrunp. }
  rewrite Hpv. cbn [snd]. unfold galleryThumbClick, showGalleryDom.
  cbn [galleryGrid]. rewrite list_lookup_imap, list_lookup_fmap, Hx.
  cbn [fmap option_fmap option_map]. unfold openLightbox, doneState.
  cbn [autoSnapshots galleryShown galleryGrid lightboxShown lightboxImage
       lightboxThumbs].
  rewrite length_imap, length_fmap, list_lookup_fmap, Hx.
  cbn [fmap option_fmap option_map].
  split; [done|]. split; [done|]. split; [done|].
  split; [eexists; split; [done | apply snap_slot_snapshot_with]|].
  intros j t. rewrite list_lookup_imap, list_lookup_fmap.
  destruct (l !! j); [|done]. by intros [= <-].
Qed.

Lemma run_then_open_witness :
  let evs := Script ToggleTryAll ::
             ((λ m, Script (TimerExpires (m + nextTimer diamondSelected)))
                <$> seq 0 (length diamondCatalog)) ++ [GalleryThumbClick 2] in
  let p := pageRun evs (diamondSelected, initialDom) in
  galleryShown p.2 = true ∧
  length (galleryGrid p.2) = length diamondCatalog ∧
  lightboxShown p.2 = true ∧
  (∃ q, lightboxImage p.2 = SrcData q ∧
        snap_slot (currentType diamondSelected) q
        = JImage {| img_ref := 2; img_src := "diamond_necklaces/3.png" |}) ∧
  ∀ j t, lightboxThumbs p.2 !! j = Some t →
         strip_active t = bool_decide (j = 2%nat).
Proof.
  apply (run_then_open diamondSelected initialDom diamondCatalog 2).
  - split; [compute_done | by vm_compute].
  - reflexivity.
  - reflexivity.
  - by vm_compute.
Defined.

(** ** What the slots hold *)

Lemma array_get_from (l : list Image) k :
  match array_get l k with
  | JImage x => x ∈ l
  | _ => True
  end.
Proof.
  unfold array_get. destruct k as [z|]; [|done].
  destruct (z <? 0); [done|].
  destruct (l !! Z.to_nat z) as [x|] eqn:E; [|done].
  by eapply list_elem_of_lookup_2.
Qed.

Lemma slots_ok_assign_slot type l k s :
  preloadedAssets s !! type = Some l → slots_ok s →
  slots_ok (assign_slot type (array_get l k) s).
Proof.
  intros Hl [He Hn]. pose proof (array_get_from l k) as Hget.
  unfold slots_ok, assign_slot.
  destruct (is_earrings type) eqn:Hfam; simpl; split; try done;
    unfold slot_from; simpl;
    destruct (array_get l k) as [| |x]; try done; by exists type, l.
Qed.

(** The invariant only reads the two slots and the cache, and the cache only
    grows. *)
Lemma slots_ok_same s t :
  earringImg t = earringImg s → necklaceImg t = necklaceImg s →
  (∀ type l, preloadedAssets s !! type = Some l →
             preloadedAssets t !! type = Some l) →
  slots_ok s → slots_ok t.
Proof.
  intros He Hn Hc [H1 H2]. unfold slots_ok, slot_from in *. rewrite He, Hn.
  split.
  - destruct (earringImg s) as [| |x]; try done.
    destruct H1 as (type & l & ? & ? & ?). exists type, l. eauto.
  - destruct (necklaceImg s) as [| |x]; try done.
    destruct H2 as (type & l & ? & ? & ?). exists type, l. eauto.
Qed.

Lemma slots_ok_stopAutoTry s : slots_ok s → slots_ok (stopAutoTry s).
Proof.
  destruct (stopAutoTry_shape s) as (tm & ef & ->). by apply slots_ok_same.
Qed.

Lemma slots_ok_runAutoStep s : slots_ok s → slots_ok (runAutoStep s).
Proof.
  intros H. unfold runAutoStep. destruct (autoTryRunning s); simpl; [|done].
  destruct (preloadedAssets s !! currentType s) as [l|] eqn:Hl;
    [|by apply slots_ok_stopAutoTry].
  destruct (Nat.leb (length l) (autoTryIndex s));
    [by apply slots_ok_stopAutoTry|].
  eapply (slots_ok_same (assign_slot (currentType s) _ s));
    [..|by apply (slots_ok_assign_slot _ l)]; done.
Qed.

Lemma slots_ok_navigateJewelry dir s :
  slots_ok s → slots_ok (navigateJewelry dir s).
Proof.
  intros H. unfold navigateJewelry.
  destruct (String.eqb (currentType s) ""); [done|].
  destruct (preloadedAssets s !! currentType s) as [l|] eqn:Hl; [|done].
  by apply (slots_ok_assign_slot _ l).
Qed.

Lemma slots_ok_step e s : slots_ok s → slots_ok (step e s).2.
Proof.
  intros H. destruct e as [now hand|type|k| | |id]; cbn [step snd].
  - destruct (onResults now hand s).1 as [g|] eqn:Hev.
    + rewrite (onResults_fired now hand s g Hev). unfold fireSwipe.
      by eapply (slots_ok_same (navigateJewelry (swipe_dir g) s));
        [..|apply slots_ok_navigateJewelry].
    + rewrite (onResults_quiet now hand s Hev). by eapply slots_ok_same.
  - eapply slots_ok_same; [..|done].
    + by destruct (selectJewelryType_shape type s) as (? & ? & ? & ->).
    + by destruct (selectJewelryType_shape type s) as (? & ? & ? & ->).
    + intros type' l Hl.
      exact (step_keeps_catalog (SelectType type) s type' l Hl).
  - destruct (thumbButtons s !! k) as [[type i]|]; [|done].
    unfold thumbClick. destruct (preloadedAssets s !! type) as [l|] eqn:Hl;
      [|done].
    by apply (slots_ok_assign_slot _ l).
  - unfold toggleTryAll. destruct (String.eqb (currentType s) "");
      [by eapply slots_ok_same|].
    destruct (autoTryRunning s); [by apply slots_ok_stopAutoTry|].
    unfold startAutoTry. apply slots_ok_runAutoStep. by eapply slots_ok_same.
  - by eapply slots_ok_same.
  - unfold timerFire. destruct (bool_decide (id ∈ timers s)); [|done].
    unfold autoStepCallback. apply slots_ok_runAutoStep.
    by eapply slots_ok_same.
Qed.

(** X21: on every page reached from the fresh page, the earring slot holds
    no image or an image of the cached catalog of a category whose name
    contains "earrings", and the necklace slot holds no image or an image of
    the cached catalog of a category whose name does not. *)
Theorem slots_hold_own_family evs :
  slots_ok (run evs initialState).2.
Proof.
  assert (H : ∀ s, slots_ok s → slots_ok (run evs s).2).
  { induction evs as [|e rest IH]; intros s Hs; [done|].
    cbn [run snd]. apply IH. by apply slots_ok_step. }
  apply H. by split.
Qed.

(** X22: on every page reached from the fresh page on which a category is
    selected, the catalog of that category is cached, so that the guard of
    [navigateJewelry] and of [runAutoStep] against a missing catalog never
    applies; the catalog has the length [IMAGE_COUNTS] gives. *)
Theorem selected_category_is_cached evs :
  let s := (run evs initialState).2 in
  currentType s ≠ "" →
  ∃ l, browsing s l ∧ length l = image_count (currentType s).
Proof.
  intros s Hty. destruct (wf_reachable evs) as (_ & _ & Hcur & _).
  destruct (page_built_reachable evs) as (Hb & _ & _). fold s in Hcur, Hb.
  destruct (Hcur Hty) as [l Hl]. exists l. split; [done|].
  destruct (Hb _ l Hl) as (base & -> & _). apply new_images_length.
Qed.

Lemma selected_category_is_cached_witness :
  let s := (run [SelectType "gold_earrings"; ToggleTryAll;
                 SelectType "diamond_necklaces"] initialState).2 in
  ∃ l, browsing s l ∧ length l = image_count (currentType s).
Proof.
  apply (selected_category_is_cached
           [SelectType "gold_earrings"; ToggleTryAll;
            SelectType "diamond_necklaces"]).
  compute_done.
Defined.
